(** * SmartRoute-Sullia: the shortest-path engine and the distance-enrichment jobs

    A shallow embedding of [transit/models.py], [transit/utils.py],
    [transit/views.py] and the two management commands
    [refresh_route_distances_with_ors] and [build_ors_matrix], with the
    properties of the specification proved about it.

    Numbers.  A Python float is modelled by a rational number: the code adds,
    divides by constants, compares and rounds, and every definition still
    evaluates.  NaN and the infinities are not represented.  The functions
    of the [math] module, which haversine_km calls, are parameters.

    Store.  The Django models are two tables: the [BusStop] rows keyed by
    their primary key, and the [Route] rows in store order.

    Effects.  The code that sends requests, sleeps, saves rows or writes
    the two JSON artifacts runs in a monad of worlds with exceptions; what
    the network answers, the settings, the clock and the file system are
    parameters collected in an environment.  What a command prints on
    stdout and stderr is not modelled. *)

From Stdlib Require Import QArith Qround Lia List Lqa.
From stdpp Require Import gmap strings list fin_maps sorting.

Local Open Scope Z_scope.

(** ** Results and exceptions *)

Inductive exn : Set :=
| DoesNotExist              (* BusStop.DoesNotExist, raised by objects.get *)
| KeyError
| HTTPError (status : Z)    (* urllib.error.HTTPError: a non-success status *)
| URLError                  (* urllib.error.URLError: the request could not be sent *)
| SocketTimeout             (* socket.timeout *)
| SSLError                  (* ssl.SSLError *)
| ValueError                (* json.JSONDecodeError and UnicodeDecodeError are ValueErrors *)
| OSError.                  (* a file cannot be created or written *)

(** What a call does: it returns a value, raises, or does not come back
    ([Diverges]: the model ran out of the fuel that bounds a [while] loop). *)
Inductive outcome (A : Type) : Type :=
| Return (a : A)
| Raise (e : exn)
| Diverges.
Arguments Return {A} a.
Arguments Raise {A} e.
Arguments Diverges {A}.

(** ** Comparisons and rounding of floats *)

Definition Qltb (x y : Q) : bool := negb (Qle_bool y x).

(** Round half to even to the nearest integer. *)
Definition round_half_even (x : Q) : Z :=
  let f := Qfloor x in
  match (x - inject_Z f ?= 1 # 2)%Q with
  | Lt => f
  | Gt => f + 1
  | Eq => if Z.even f then f else f + 1
  end.

(** [round(x, ndigits)] for [ndigits >= 0]. *)
Definition py_round (x : Q) (ndigits : Z) : Q :=
  let scale := inject_Z (10 ^ ndigits) in
  Qred (inject_Z (round_half_even (x * scale)) / scale).

(** ** The store (transit/models.py) *)

Record BusStop := {
  name : string;
  latitude : Q;
  longitude : Q;
}.

Record Route := {
  route_pk : Z;
  start_stop_id : Z;
  end_stop_id : Z;
  distance : Q;
  duration : option Q;       (* null=True *)
}.

Record Store := {
  bus_stops : gmap Z BusStop;   (* primary key -> row *)
  routes : list Route;           (* rows in store order *)
}.

(** [Route.objects.select_related("start_stop", "end_stop").all()]: both
    foreign keys are non-null, so the query is an INNER JOIN with the stop
    table; a row whose stop is missing is not returned. *)
Definition Route_select_related (db : Store) : list (Route * BusStop * BusStop) :=
  omap (fun r =>
          match bus_stops db !! start_stop_id r, bus_stops db !! end_stop_id r with
          | Some a, Some b => Some (r, a, b)
          | _, _ => None
          end) (routes db).

(** Referential integrity, which the ForeignKey columns declare. *)
Definition foreign_keys_ok (db : Store) : Prop :=
  forall r, r ∈ routes db ->
    is_Some (bus_stops db !! start_stop_id r) /\ is_Some (bus_stops db !! end_stop_id r).

(** ** transit/utils.py: build_graph *)

(** [graph.setdefault(u, []).append((v, w))] *)
Definition add_edge (graph : gmap Z (list (Z * Q))) (u v : Z) (w : Q)
  : gmap Z (list (Z * Q)) :=
  <[u := default [] (graph !! u) ++ [(v, w)]]> graph.

Definition build_graph (db : Store) : gmap Z (list (Z * Q)) :=
  foldl (fun graph '(edge, _, _) =>
           add_edge graph (start_stop_id edge) (end_stop_id edge) (distance edge))
        ∅ (Route_select_related db).

(** [graph.get(u, [])] *)
Definition graph_get (graph : gmap Z (list (Z * Q))) (u : Z) : list (Z * Q) :=
  default [] (graph !! u).

(** ** The priority queue

    [heapq] keeps a binary heap inside a Python list.  The engine relies on
    one thing only: [heappop] removes and returns a least entry for the
    order of tuples [(distance, node)].  The queue is modelled by the list
    of its entries, and [heappop] selects a least one. *)

Definition entry : Set := (Q * Z)%type.

(** Tuple comparison [a < b]. *)
Definition entry_ltb (a b : entry) : bool :=
  Qltb a.1 b.1 || (Qeq_bool a.1 b.1 && (a.2 <? b.2)).

Definition heappush (heap : list entry) (e : entry) : list entry := e :: heap.

Fixpoint heap_select (e : entry) (heap : list entry) : entry * list entry :=
  match heap with
  | [] => (e, [])
  | x :: heap' =>
      if entry_ltb x e
      then let '(m, rest) := heap_select x heap' in (m, e :: rest)
      else let '(m, rest) := heap_select e heap' in (m, x :: rest)
  end.

Definition heappop (heap : list entry) : option (entry * list entry) :=
  match heap with
  | [] => None
  | x :: heap' => Some (heap_select x heap')
  end.

(** ** transit/utils.py: dijkstra_shortest_path *)

(** The local variables of the search loop. *)
Record search := {
  dist : gmap Z Q;
  prev : gmap Z (option Z);
  heap : list entry;
  visited : gset Z;
}.

(** One turn of [for v, w in graph.get(u, [])]. *)
Definition relax_edge (d : Q) (u : Z) (st : search) (vw : Z * Q) : search :=
  let '(v, w) := vw in
  let alt := (d + w)%Q in
  if match dist st !! v with
     | None => true                    (* v not in dist *)
     | Some dv => Qltb alt dv          (* alt < dist[v] *)
     end
  then {| dist := <[v := alt]> (dist st);
          prev := <[v := Some u]> (prev st);
          heap := heappush (heap st) (alt, v);
          visited := visited st |}
  else st.

Definition relax (d : Q) (u : Z) (adj : list (Z * Q)) (st : search) : search :=
  foldl (relax_edge d u) st adj.

(** [while heap: ...]; [None] when the fuel runs out before the loop ends. *)
Fixpoint search_loop (fuel : nat) (graph : gmap Z (list (Z * Q)))
    (destination_id : Z) (st : search) : option search :=
  match fuel with
  | O => None
  | S fuel' =>
      match heappop (heap st) with
      | None => Some st
      | Some ((d, u), heap') =>
          if decide (u ∈ visited st)
          then search_loop fuel' graph destination_id
                 {| dist := dist st; prev := prev st; heap := heap';
                    visited := visited st |}
          else
            let st' := {| dist := dist st; prev := prev st; heap := heap';
                          visited := {[u]} ∪ visited st |} in
            if decide (u = destination_id) then Some st'
            else search_loop fuel' graph destination_id
                   (relax d u (graph_get graph u) st')
      end
  end.

(** [while cur is not None: path_ids.append(cur); cur = prev.get(cur)].
    The list is in the order of the appends (destination first). *)
Fixpoint walk_back (fuel : nat) (prev : gmap Z (option Z)) (cur : Z)
  : option (list Z) :=
  match fuel with
  | O => None
  | S fuel' =>
      match prev !! cur with
      | Some (Some p) => (cur ::.) <$> walk_back fuel' prev p
      | _ => Some [cur]
      end
  end.

Record StopInfo := {
  info_id : Z;
  info_name : string;
  info_latitude : Q;
  info_longitude : Q;
}.

(** The dictionary the function returns; [total_duration_min = None] stands
    for the key being absent. *)
Record PathResult := {
  path : list Z;
  total_distance : Q;
  stops : list StopInfo;
  total_duration_min : option Q;
}.

Definition stop_info (sid : Z) (s : BusStop) : StopInfo :=
  {| info_id := sid; info_name := name s;
     info_latitude := latitude s; info_longitude := longitude s |}.

(** [zip(path_ids, path_ids[1:])] *)
Definition edge_pairs_of (path_ids : list Z) : list (Z * Z) :=
  zip path_ids (tail path_ids).

(** [Route.objects.filter(start_stop_id__in=us, end_stop_id__in=vs)] *)
Definition Route_filter_in (db : Store) (us vs : list Z) : list Route :=
  filter (fun r => start_stop_id r ∈ us /\ end_stop_id r ∈ vs) (routes db).

(** [for r in routes: dur_map[(r.start_stop_id, r.end_stop_id)] = r.duration] *)
Definition build_dur_map (rs : list Route) : gmap (Z * Z) (option Q) :=
  foldl (fun m r => <[(start_stop_id r, end_stop_id r) := duration r]> m) ∅ rs.

(** The accumulation loop: [None] when it leaves by [break]. *)
Fixpoint sum_durations (dur_map : gmap (Z * Z) (option Q)) (acc : Q)
    (pairs : list (Z * Z)) : option Q :=
  match pairs with
  | [] => Some acc
  | uv :: pairs' =>
      match dur_map !! uv with
      | Some (Some dval) => sum_durations dur_map (acc + dval)%Q pairs'
      | _ => None                      (* dur_map.get((u, v)) is None *)
      end
  end.

Definition path_duration (db : Store) (path_ids : list Z) : option Q :=
  let edge_pairs := edge_pairs_of path_ids in
  match edge_pairs with
  | [] => None
  | _ =>
      let routes := Route_filter_in db (fst <$> edge_pairs) (snd <$> edge_pairs) in
      let dur_map := build_dur_map routes in
      match sum_durations dur_map 0 edge_pairs with
      | Some acc => Some (py_round acc 2)
      | None => None
      end
  end.

(** A bound on the number of turns of the search loop: every entry of the
    queue is the origin or was pushed for one edge of the graph. *)
Definition search_fuel (db : Store) : nat := S (S (length (routes db))).

Definition dijkstra_shortest_path (db : Store) (origin_id destination_id : Z)
  : outcome (option PathResult) :=
  if decide (origin_id = destination_id) then
    match bus_stops db !! origin_id with
    | None => Raise DoesNotExist
    | Some stop =>
        Return (Some {| path := [origin_id];
                        total_distance := 0;
                        stops := [stop_info origin_id stop];
                        total_duration_min := None |})
    end
  else
    let graph := build_graph db in
    let st0 := {| dist := {[origin_id := 0%Q]};
                  prev := {[origin_id := None]};
                  heap := [(0%Q, origin_id)];
                  visited := ∅ |} in
    match search_loop (search_fuel db) graph destination_id st0 with
    | None => Diverges
    | Some st =>
        match dist st !! destination_id with
        | None => Return None
        | Some total =>
            match walk_back (S (size (prev st))) (prev st) destination_id with
            | None => Diverges
            | Some appended =>
                let path_ids := reverse appended in
                let stops_by_id :=
                  filter (fun kv => kv.1 ∈ path_ids) (bus_stops db) in
                match mapM (fun sid => stop_info sid <$> stops_by_id !! sid) path_ids with
                | None => Raise KeyError
                | Some ordered_stops =>
                    Return (Some {| path := path_ids;
                                    total_distance := total;
                                    stops := ordered_stops;
                                    total_duration_min := path_duration db path_ids |})
                end
            end
        end
    end.

(** ** The outside world: settings, network, clock, files *)

(** A decoded JSON document.  An object is the list of its members. *)
#[warnings="-register-all"] Inductive json : Type :=
| JNull
| JBool (b : bool)
| JNum (q : Q)
| JStr (s : string)
| JArr (items : list json)
| JObj (members : list (string * json)).

(** The POST request the three provider clients build. *)
Record request := {
  req_url : string;
  req_coordinates : list (Q * Q);     (* [[lon, lat], ...] *)
  req_authorization : string;
  req_timeout : Z;
}.

(** What [with request.urlopen(req, timeout=...) as resp:
    json.loads(resp.read().decode("utf-8"))] meets. *)
Inductive response : Type :=
| RespHTTPError (status : Z)   (* non-success status: urlopen raises HTTPError *)
| RespURLError                 (* no connection, or a timeout or TLS failure while
                                  connecting, which urlopen wraps in URLError *)
| RespTimeout                  (* socket.timeout while the body is read *)
| RespSSLError                 (* ssl.SSLError while the body is read *)
| RespBody (doc : option json).  (* the body; [None] when it is empty or is not
                                    JSON text, and json.loads raises *)

(** The functions of the [math] module that haversine_km calls. *)
Record math_module := {
  math_radians : Q -> Q;
  math_sin : Q -> Q;
  math_cos : Q -> Q;
  math_sqrt : Q -> Q;
  math_atan2 : Q -> Q -> Q;
}.

Record environment := {
  OPENROUTESERVICE_API_KEY : string;      (* django.conf.settings *)
  urlopen : nat -> request -> response;   (* the answer to the n-th request sent *)
  float_of_text : string -> option Q;     (* float() of a str; None: ValueError *)
  utc_now : string;                       (* datetime.now(timezone.utc).isoformat() *)
  data_dir_writable : bool;               (* transit/data can be made and written *)
  math : math_module;
}.

(** The run-stats artifact transit/data/ors_stats.json. *)
Record RunStats := {
  stats_updated : Z;
  stats_skipped : Z;
  stats_timestamp : string;
}.

(** An entry of the matrix artifact transit/data/ors_matrix.json. *)
Record MatrixEntry := {
  entry_from : Z;
  entry_to : Z;
  entry_distance_km : option Q;
  entry_duration_min : option Q;
  entry_method : string;
}.

(** What the code can change. *)
Record world := {
  store : Store;
  sent : list request;                       (* the requests sent, in order *)
  slept : list Q;                            (* the calls of time.sleep *)
  ors_stats_json : option RunStats;
  ors_matrix_json : option (list MatrixEntry);
}.

(** Code with effects: it runs from a world, and returns, raises or
    diverges, leaving a world. *)
Definition M (A : Type) : Type := world -> outcome A * world.

Global Instance M_ret : MRet M := fun A a w => (Return a, w).
Global Instance M_bind : MBind M := fun A B f m w =>
  match m w with
  | (Return a, w') => f a w'
  | (Raise e, w') => (Raise e, w')
  | (Diverges, w') => (Diverges, w')
  end.

Global Instance M_fmap : FMap M := fun A B f m w =>
  match m w with
  | (Return a, w') => (Return (f a), w')
  | (Raise e, w') => (Raise e, w')
  | (Diverges, w') => (Diverges, w')
  end.

(** [try: m  except <the exceptions that catches accepts>: return handler] *)
Definition try_except {A} (m : M A) (catches : exn -> bool) (handler : M A) : M A :=
  fun w =>
    match m w with
    | (Raise e, w') => if catches e then handler w' else (Raise e, w')
    | r => r
    end.

(** Code that only reads the store. *)
Definition with_store {A} (f : Store -> outcome A) : M A :=
  fun w => (f (store w), w).

Definition sleep (seconds : Q) : M unit :=
  fun w => (Return tt,
            {| store := store w; sent := sent w; slept := slept w ++ [seconds];
               ors_stats_json := ors_stats_json w;
               ors_matrix_json := ors_matrix_json w |}).

(** The request goes out, and its answer comes back or an exception does. *)
Definition urlopen_read_json (env : environment) (req : request) : M json :=
  fun w =>
    let w' := {| store := store w; sent := sent w ++ [req]; slept := slept w;
                 ors_stats_json := ors_stats_json w;
                 ors_matrix_json := ors_matrix_json w |} in
    match urlopen env (length (sent w)) req with
    | RespHTTPError status => (Raise (HTTPError status), w')
    | RespURLError => (Raise URLError, w')
    | RespTimeout => (Raise SocketTimeout, w')
    | RespSSLError => (Raise SSLError, w')
    | RespBody None => (Raise ValueError, w')
    | RespBody (Some doc) => (Return doc, w')
    end.

(** ** Python values read out of a JSON document

    In each of these [None] stands for an exception (AttributeError,
    KeyError, IndexError, TypeError or ValueError), which the callers catch
    with [except Exception]. *)

Fixpoint assoc (key : string) (members : list (string * json)) : option json :=
  match members with
  | [] => None
  | (k, v) :: members' => if String.eqb k key then Some v else assoc key members'
  end.

(** [j.get(key, default)] *)
Definition dict_get (j : json) (key : string) (dflt : json) : option json :=
  match j with
  | JObj members => Some (default dflt (assoc key members))
  | _ => None
  end.

(** [j[key]] for a text key *)
Definition subscript (j : json) (key : string) : option json :=
  match j with
  | JObj members => assoc key members
  | _ => None
  end.

(** [j[0]] *)
Definition first_item (j : json) : option json :=
  match j with
  | JArr (x :: _) => Some x
  | JStr (String c _) => Some (JStr (String c EmptyString))
  | _ => None
  end.

(** The truth value of [j], as [not j] tests it. *)
Definition truthy (j : json) : bool :=
  match j with
  | JNull => false
  | JBool b => b
  | JNum q => negb (Qeq_bool q 0)
  | JStr s => negb (String.eqb s EmptyString)
  | JArr items => match items with [] => false | _ => true end
  | JObj members => match members with [] => false | _ => true end
  end.

(** [float(j)] *)
Definition py_float (env : environment) (j : json) : option Q :=
  match j with
  | JNum q => Some q
  | JBool b => Some (if b then 1 else 0)%Q
  | JStr s => float_of_text env s
  | _ => None
  end.

(** [int(x)] of a float: towards zero. *)
Definition py_int (x : Q) : Z := Z.quot (Qnum x) (Z.pos (Qden x)).

(** ** transit/utils.py: the provider client of the endpoint *)

Definition ors_url (profile : string) : string :=
  "https://api.openrouteservice.org/v2/directions/" ++ profile ++ "/geojson".

Definition _ors_request (env : environment) (url : string)
    (coordinates : list (Q * Q)) (api_key : string) (timeout : Z) : M json :=
  urlopen_read_json env
    {| req_url := url; req_coordinates := coordinates;
       req_authorization := api_key; req_timeout := timeout |}.

Record OrsRoute := {
  geojson : json;
  distance_km : Q;
  duration_min : Q;
}.

(** The second [try] block of ors_directions_for_stops: the outer [None] is
    an exception, the inner one is [return None]. *)
Definition parse_summary (env : environment) (data : json) : option (option OrsRoute) :=
  features ← dict_get data "features" (JArr []);
  if negb (truthy features) then Some None
  else
    f0 ← first_item features;
    props ← dict_get f0 "properties" (JObj []);
    summary ← dict_get props "summary" (JObj []);
    distance_m ← dict_get summary "distance" (JNum 0) ≫= py_float env;
    duration_s ← dict_get summary "duration" (JNum 0) ≫= py_float env;
    Some (Some {| geojson := data;
                  distance_km := py_round (distance_m / 1000) 3;
                  duration_min := py_round (duration_s / 60) 1 |}).

Definition ors_directions_for_stops (env : environment) (stops : list StopInfo)
    (profile : string) : M (option OrsRoute) :=
  let api_key := OPENROUTESERVICE_API_KEY env in
  if String.eqb api_key "" || match stops with [] => true | _ => false end
     || (length stops <? 2)%nat
  then mret (M := M) None
  else
    let coordinates := (fun s => (info_longitude s, info_latitude s)) <$> stops in
    let url := ors_url profile in
    r ← try_except (Some <$> _ors_request env url coordinates api_key 20)
           (fun e => match e with HTTPError _ | URLError => true | _ => false end)
           (mret None);
    match r with
    | None => mret None
    | Some data => mret (default None (parse_summary env data))
    end.

(** ** transit/views.py: shortest_route *)

(** [request.query_params.get(key)] as [int()] sees it. *)
Inductive query_param : Type :=
| ParamMissing               (* None: int raises TypeError *)
| ParamNotInt (s : string)   (* a text that is not an integer: ValueError *)
| ParamInt (n : Z).          (* the text of the integer n *)

Inductive response_data : Type :=
| Detail (message : string)
| RouteData (result : PathResult) (ors : option OrsRoute).
                              (* the result dictionary, with its "ors" key if set *)

Record Response := {
  status : Z;
  data : response_data;
}.

Definition HTTP_200_OK : Z := 200.
Definition HTTP_400_BAD_REQUEST : Z := 400.
Definition HTTP_404_NOT_FOUND : Z := 404.

Definition shortest_route (env : environment) (origin destination : query_param)
  : M Response :=
  match origin, destination with
  | ParamInt origin, ParamInt destination =>
      result ← with_store (fun db => dijkstra_shortest_path db origin destination);
      match result with
      | None =>
          mret {| status := HTTP_404_NOT_FOUND;
                  data := Detail "No path found between the selected stops" |}
      | Some result =>
          ors ← ors_directions_for_stops env (stops result) "driving-car";
          mret {| status := HTTP_200_OK; data := RouteData result ors |}
      end
  | _, _ =>
      mret {| status := HTTP_400_BAD_REQUEST;
              data := Detail "origin and destination are required integer ids" |}
  end.

(** What the client of the endpoint gets: the view's response, or the
    server-error response that Django makes of an exception that leaves
    the view. *)
Definition served_status (r : outcome Response) : option Z :=
  match r with
  | Return resp => Some (status resp)
  | Raise _ => Some 500
  | Diverges => None
  end.

(** ** The retry loop of the two batch jobs

    [while attempts <= retries and pair is None], with the call of the
    provider in [fetch]; [remaining] is [retries + 1 - attempts]. *)
Fixpoint retry_loop (fetch : M (option (Q * Q))) (sleep_s : Q) (remaining : nat)
  : M (option (Q * Q)) :=
  match remaining with
  | O => mret None
  | S remaining' =>
      pair ← fetch;
      match pair with
      | Some p => mret (Some p)
      | None =>
          (if (0 <? remaining')%nat && Qltb 0 sleep_s   (* attempts < retries *)
           then sleep sleep_s else mret tt);;
          retry_loop fetch sleep_s remaining'
      end
  end.

(** The parsing block shared by _ors_distance_duration and ors_pair. *)
Definition parse_pair (env : environment) (res : json) : option (option (Q * Q)) :=
  features ← dict_get res "features" (JArr []);
  if negb (truthy features) then Some None
  else
    f0 ← first_item features;
    props ← subscript f0 "properties";
    summary ← dict_get props "summary" (JObj []);
    distance_m ← dict_get summary "distance" (JNum 0) ≫= py_float env;
    duration_s ← dict_get summary "duration" (JNum 0) ≫= py_float env;
    Some (Some (distance_m / 1000, duration_s / 60)%Q).

Definition catches_transport (e : exn) : bool :=
  match e with
  | HTTPError _ | URLError | SocketTimeout | SSLError => true
  | _ => false
  end.

(** ** transit/management/commands/refresh_route_distances_with_ors.py *)

Definition _ors_distance_duration (env : environment) (lon1 lat1 lon2 lat2 : Q)
    (api_key : string) (timeout : Z) : M (option (Q * Q)) :=
  r ← try_except
         (Some <$> urlopen_read_json env
            {| req_url := ors_url "driving-car";
               req_coordinates := [(lon1, lat1); (lon2, lat2)];
               req_authorization := api_key; req_timeout := timeout |})
         catches_transport (mret None);
  match r with
  | None => mret None
  | Some res => mret (default None (parse_pair env res))
  end.

Record refresh_options := {
  refresh_sleep : Q;
  refresh_limit : Z;
  refresh_dry : bool;
  refresh_skip_existing : bool;
  refresh_timeout : Q;
  refresh_retries : Z;
}.

(** [r.distance = d_km; r.duration = dur_min; r.save(update_fields=[...])]:
    the row with r's primary key is updated. *)
Definition save_route (r : Route) (d_km dur_min : Q) : M unit :=
  fun w =>
    (Return tt,
     {| store :=
          {| bus_stops := bus_stops (store w);
             routes :=
               (fun r' => if decide (route_pk r' = route_pk r)
                          then {| route_pk := route_pk r';
                                  start_stop_id := start_stop_id r';
                                  end_stop_id := end_stop_id r';
                                  distance := d_km; duration := Some dur_min |}
                          else r') <$> routes (store w) |};
        sent := sent w; slept := slept w;
        ors_stats_json := ors_stats_json w;
        ors_matrix_json := ors_matrix_json w |}).

(** The queryset of the pass: the joined rows, filtered and cut. *)
Definition refresh_queryset (opts : refresh_options) (db : Store)
  : list (Route * BusStop * BusStop) :=
  let qs := Route_select_related db in
  let qs := if refresh_skip_existing opts
            then filter (fun '(r, _, _) => Qle_bool (distance r) 0 = true) qs
            else qs in
  if 0 <? refresh_limit opts then take (Z.to_nat (refresh_limit opts)) qs else qs.

(** The provider for one edge, with its retries. *)
Definition refresh_fetch (env : environment) (opts : refresh_options)
    (row : Route * BusStop * BusStop) : M (option (Q * Q)) :=
  let '(_, start_stop, end_stop) := row in
  retry_loop
    (_ors_distance_duration env
       (longitude start_stop) (latitude start_stop)
       (longitude end_stop) (latitude end_stop)
       (OPENROUTESERVICE_API_KEY env) (py_int (refresh_timeout opts)))
    (refresh_sleep opts)
    (Z.to_nat (Z.max 0 (refresh_retries opts) + 1)).

(** The [for idx, r in enumerate(qs, start=1)] loop, with its counters. *)
Fixpoint refresh_loop (env : environment) (opts : refresh_options)
    (rows : list (Route * BusStop * BusStop)) (updated skipped : Z) : M (Z * Z) :=
  match rows with
  | [] => mret (updated, skipped)
  | row :: rows' =>
      pair ← refresh_fetch env opts row;
      counters ←
        match pair with
        | None => mret (updated, skipped + 1)
        | Some (d_km, dur_min) =>
            (if refresh_dry opts then mret tt else save_route row.1.1 d_km dur_min);;
            mret (updated + 1, skipped)
        end;
      (if Qltb 0 (refresh_sleep opts) then sleep (refresh_sleep opts) else mret tt);;
      refresh_loop env opts rows' counters.1 counters.2
  end.

(** The [try: ... json.dump(payload, f) except Exception: pass] block. *)
Definition write_stats (env : environment) (updated skipped : Z) : M unit :=
  fun w =>
    if data_dir_writable env then
      (Return tt,
       {| store := store w; sent := sent w; slept := slept w;
          ors_stats_json :=
            Some {| stats_updated := updated; stats_skipped := skipped;
                    stats_timestamp := utc_now env |};
          ors_matrix_json := ors_matrix_json w |})
    else (Return tt, w).

(** [Command.handle]; [qs.count()] only feeds the progress lines. *)
Definition refresh_handle (env : environment) (opts : refresh_options) : M unit :=
  if String.eqb (OPENROUTESERVICE_API_KEY env) "" then mret tt
  else
    qs ← with_store (fun db => Return (refresh_queryset opts db));
    counters ← refresh_loop env opts qs 0 0;
    write_stats env counters.1 counters.2.

(** ** transit/management/commands/build_ors_matrix.py *)

Definition haversine_km (m : math_module) (lat1 lon1 lat2 lon2 : Q) : Q :=
  let R := 6371%Q in
  let dlat := math_radians m (lat2 - lat1) in
  let dlon := math_radians m (lon2 - lon1) in
  let sq x := (x * x)%Q in                       (* x ** 2 *)
  let a := (sq (math_sin m (dlat / 2))
            + math_cos m (math_radians m lat1) * math_cos m (math_radians m lat2)
              * sq (math_sin m (dlon / 2)))%Q in
  let c := (2 * math_atan2 m (math_sqrt m a) (math_sqrt m (1 - a)))%Q in
  (R * c)%Q.

Definition ors_pair (env : environment) (lon1 lat1 lon2 lat2 : Q)
    (api_key : string) (timeout : Z) : M (option (Q * Q)) :=
  r ← try_except
         (Some <$> urlopen_read_json env
            {| req_url := ors_url "driving-car";
               req_coordinates := [(lon1, lat1); (lon2, lat2)];
               req_authorization := api_key; req_timeout := timeout |})
         catches_transport (mret None);
  match r with
  | None => mret None
  | Some res => mret (default None (parse_pair env res))
  end.

Record matrix_options := {
  matrix_sleep : Q;
  matrix_limit : Z;
  matrix_dry : bool;
  matrix_timeout : Q;
  matrix_retries : Z;
}.

Definition stop_id_le (x y : Z * BusStop) : Prop := x.1 ≤ y.1.

Global Instance stop_id_le_dec x y : Decision (stop_id_le x y) :=
  decide (x.1 ≤ y.1).

(** [BusStop.objects.all().order_by("id")] *)
Definition BusStop_order_by_id (db : Store) : list (Z * BusStop) :=
  merge_sort stop_id_le (map_to_list (bus_stops db)).

(** [limit and count >= limit] *)
Definition limit_reached (opts : matrix_options) (count : Z) : bool :=
  negb (matrix_limit opts =? 0) && (matrix_limit opts <=? count).

(** The body of the two loops for the pair [(a, b)]: the entry appended. *)
Definition matrix_entry (env : environment) (opts : matrix_options)
    (a b : Z * BusStop) : M MatrixEntry :=
  let api_key := OPENROUTESERVICE_API_KEY env in
  pair ←
    (if negb (String.eqb api_key "")
     then retry_loop
            (ors_pair env (longitude a.2) (latitude a.2) (longitude b.2) (latitude b.2)
               api_key (py_int (matrix_timeout opts)))
            (matrix_sleep opts)
            (Z.to_nat (Z.max 0 (matrix_retries opts) + 1))
     else mret None);
  match pair with
  | None =>
      (* Fallback to haversine only distance *)
      let dist_km := haversine_km (math env)
                       (latitude a.2) (longitude a.2) (latitude b.2) (longitude b.2) in
      mret {| entry_from := a.1; entry_to := b.1;
              entry_distance_km := Some (py_round dist_km 5);
              entry_duration_min := None;
              entry_method := "haversine" |}
  | Some (dist_km, dur_min) =>
      mret {| entry_from := a.1; entry_to := b.1;
              entry_distance_km := Some (py_round dist_km 5);
              entry_duration_min := Some (py_round dur_min 2);
              entry_method := "ors" |}
  end.

(** [for j in range(n)], for the stop [a] of index [i]; the indices still
    to come are in [js]. *)
Fixpoint matrix_inner (env : environment) (opts : matrix_options)
    (i : nat) (a : Z * BusStop) (js : list (nat * (Z * BusStop)))
    (results : list MatrixEntry) (count : Z) : M (list MatrixEntry * Z) :=
  match js with
  | [] => mret (results, count)
  | (j, b) :: js' =>
      if (i =? j)%nat then matrix_inner env opts i a js' results count
      else
        e ← matrix_entry env opts a b;
        let results := results ++ [e] in
        let count := count + 1 in
        if limit_reached opts count then mret (results, count)      (* break *)
        else
          (if Qltb 0 (matrix_sleep opts)
              && negb (String.eqb (OPENROUTESERVICE_API_KEY env) "")
           then sleep (matrix_sleep opts) else mret tt);;
          matrix_inner env opts i a js' results count
  end.

(** [for i in range(n)] *)
Fixpoint matrix_outer (env : environment) (opts : matrix_options)
    (all : list (nat * (Z * BusStop))) (todo : list (nat * (Z * BusStop)))
    (results : list MatrixEntry) (count : Z) : M (list MatrixEntry * Z) :=
  match todo with
  | [] => mret (results, count)
  | (i, a) :: todo' =>
      rc ← matrix_inner env opts i a all results count;
      if limit_reached opts rc.2 then mret rc                        (* break *)
      else matrix_outer env opts all todo' rc.1 rc.2
  end.

(** The matrix the command computes. *)
Definition matrix_compute (env : environment) (opts : matrix_options)
  : M (list MatrixEntry) :=
  stops ← with_store (fun db => Return (BusStop_order_by_id db));
  let indexed := zip (seq 0 (length stops)) stops in
  rc ← matrix_outer env opts indexed indexed [] 0;
  mret rc.1.

Definition write_matrix (env : environment) (results : list MatrixEntry) : M unit :=
  fun w =>
    if data_dir_writable env then
      (Return tt,
       {| store := store w; sent := sent w; slept := slept w;
          ors_stats_json := ors_stats_json w;
          ors_matrix_json := Some results |})
    else (Raise OSError, w).

(** [Command.handle]; [socket.setdefaulttimeout] changes nothing that the
    model sees. *)
Definition matrix_handle (env : environment) (opts : matrix_options) : M unit :=
  results ← matrix_compute env opts;
  if matrix_dry opts then mret tt else write_matrix env results.

(** ** Definitions used to state the properties of the search *)

(** The arcs of the query result, in store order. *)
Definition arcs (db : Store) : list (Z * (Z * Q)) :=
  (fun '(r, _, _) => (start_stop_id r, (end_stop_id r, distance r)))
    <$> Route_select_related db.

(** The two ways a turn of the loop changes the state before relaxing. *)
Definition drop_entry (st : search) (heap' : list entry) : search :=
  {| dist := dist st; prev := prev st; heap := heap'; visited := visited st |}.

Definition settle (st : search) (heap' : list entry) (u : Z) : search :=
  {| dist := dist st; prev := prev st; heap := heap';
     visited := {[u]} ∪ visited st |}.

(** The arcs that may still push an entry: those leaving a node that has
    not been settled. *)
Definition pending (db : Store) (vis : gset Z) : list (Z * (Z * Q)) :=
  filter (fun a => a.1 ∉ vis) (arcs db).

Definition initial_search (origin_id : Z) : search :=
  {| dist := {[origin_id := 0%Q]}; prev := {[origin_id := None]};
     heap := [(0%Q, origin_id)]; visited := ∅ |}.

(** A directed path of the graph from [o], with its nodes and the sum of
    its weights, added from the origin on as the search adds them. *)
Inductive path_to (graph : gmap Z (list (Z * Q))) (o : Z) : Z -> list Z -> Q -> Prop :=
| path_origin : path_to graph o o [o] 0
| path_arc u p c v w :
    path_to graph o u p c -> (v, w) ∈ graph_get graph u ->
    path_to graph o v (p ++ [v]) (c + w).

(** The chain of predecessors from a node back to [o]: its nodes, the node
    first, and the sum of the weights of its arcs. *)
Inductive chain (graph : gmap Z (list (Z * Q))) (P : gmap Z (option Z)) (o : Z)
  : Z -> list Z -> Q -> Prop :=
| chain_origin : P !! o = Some None -> chain graph P o o [o] 0
| chain_arc v u l c w :
    P !! v = Some (Some u) -> chain graph P o u l c ->
    (v, w) ∈ graph_get graph u -> chain graph P o v (v :: l) (c + w).

(** The arc [u -> v] has been relaxed. *)
Definition relaxed (st : search) (u v : Z) (w : Q) : Prop :=
  exists xu xv, dist st !! u = Some xu /\ dist st !! v = Some xv /\ (xv <= xu + w)%Q.

(** The invariant of the search loop when no weight is negative. *)
Record search_inv (graph : gmap Z (list (Z * Q))) (o dest : Z) (st : search) : Prop := {
  inv_origin : dist st !! o = Some 0%Q;
  inv_chain : forall v x, dist st !! v = Some x ->
    exists l, chain graph (prev st) o v l x /\ forall y, y ∈ tail l -> y ∈ visited st;
  inv_queued : forall v x, dist st !! v = Some x -> v ∉ visited st -> (x, v) ∈ heap st;
  inv_entry : forall d v, (d, v) ∈ heap st ->
    exists x, dist st !! v = Some x /\ ((x < d)%Q \/ x = d);
  inv_settled : forall v, v ∈ visited st ->
    exists x, dist st !! v = Some x /\ forall d' v', (d', v') ∈ heap st -> (x <= d')%Q;
  inv_dest : dest ∉ visited st;
}.

(** While the arcs of [u] are relaxed. *)
Record relax_inv (graph : gmap Z (list (Z * Q))) (o dest : Z) (d : Q) (u : Z)
    (Done : Z * Q -> Prop) (st : search) : Prop := {
  rel_inv : search_inv graph o dest st;
  rel_settled : u ∈ visited st;
  rel_dist : dist st !! u = Some d;
  rel_below : forall y, y ∈ visited st -> exists x, dist st !! y = Some x /\ (x <= d)%Q;
  rel_old : forall a v w, a ∈ visited st -> a ≠ u -> (v, w) ∈ graph_get graph a ->
    relaxed st a v w;
  rel_done : forall v w, Done (v, w) -> relaxed st u v w;
}.

(** The invariant at the top of each turn of the loop. *)
Definition loop_inv (graph : gmap Z (list (Z * Q))) (o dest : Z) (st : search) : Prop :=
  search_inv graph o dest st
  /\ forall u v w, u ∈ visited st -> (v, w) ∈ graph_get graph u -> relaxed st u v w.

(** What holds when the loop is left. *)
Definition loop_post (graph : gmap Z (list (Z * Q))) (o dest : Z) (st : search) : Prop :=
  forall x, dist st !! dest = Some x ->
    (exists l, chain graph (prev st) o dest l x)
    /\ forall p c, path_to graph o dest p c -> (x <= c)%Q.

(** The edge set the graph is built from: the rows of the query. *)
Definition edge_set (db : Store) : list Route :=
  (fun '(r, _, _) => r) <$> Route_select_related db.

(** Each route starts where the one before it ends, the first one at [u]. *)
Fixpoint consecutive (u : Z) (rs : list Route) : Prop :=
  match rs with
  | [] => True
  | r :: rs' => start_stop_id r = u /\ consecutive (end_stop_id r) rs'
  end.

(** The stops a sequence of routes goes through from [o]. *)
Definition path_nodes (o : Z) (rs : list Route) : list Z :=
  o :: (end_stop_id <$> rs).

(** The sum of the distances, added in the order of the path. *)
Definition route_length (rs : list Route) : Q :=
  foldl (fun acc r => (acc + distance r)%Q) 0%Q rs.

(** [rs] is a directed path from [o] to [d] over [edges]. *)
Definition is_path (edges : list Route) (o d : Z) (rs : list Route) : Prop :=
  Forall (fun r => r ∈ edges) rs /\ consecutive o rs
  /\ last (path_nodes o rs) = Some d.

(** Every node with a recorded distance can be reached from [o]. *)
Definition reach_inv (graph : gmap Z (list (Z * Q))) (o : Z) (st : search) : Prop :=
  (forall v, is_Some (dist st !! v) -> exists p c, path_to graph o v p c)
  /\ (forall d v, (d, v) ∈ heap st -> is_Some (dist st !! v)).

Definition reach_post (graph : gmap Z (list (Z * Q))) (o dest : Z) (st : search) : Prop :=
  is_Some (dist st !! dest) -> exists p c, path_to graph o dest p c.


(** ** Definitions used to state the properties of the durations *)





(** ** Definitions used to state the properties of the batch jobs *)

(** The effects of [m] leave the store and the two artifacts alone. *)
Definition quiet {A} (m : M A) : Prop :=
  forall w r w', m w = (r, w') ->
    store w' = store w /\ ors_stats_json w' = ors_stats_json w
    /\ ors_matrix_json w' = ors_matrix_json w.

(** The answers the provider gives for the edges of the pass, retries
    included, in the order of the pass; the list stops where an exception
    leaves the provider. *)
Fixpoint refresh_fetches (env : environment) (opts : refresh_options)
    (rows : list (Route * BusStop * BusStop)) (w : world) : list (option (Q * Q)) :=
  match rows with
  | [] => []
  | row :: rows' =>
      match refresh_fetch env opts row w with
      | (Return answer, w1) =>
          let w2 := match answer with
                    | Some (d_km, dur_min) =>
                        if refresh_dry opts then w1
                        else (save_route row.1.1 d_km dur_min w1).2
                    | None => w1
                    end in
          let w3 := if Qltb 0 (refresh_sleep opts)
                    then (sleep (refresh_sleep opts) w2).2 else w2 in
          answer :: refresh_fetches env opts rows' w3
      | _ => []
      end
  end.

Definition count_some (l : list (option (Q * Q))) : Z :=
  Z.of_nat (length (filter (fun o => is_Some o) l)).

Definition count_none (l : list (option (Q * Q))) : Z :=
  Z.of_nat (length (filter (fun o => o = None) l)).

(** The entry of the pair [(a, b)] when the estimate is used. *)
Definition haversine_entry (env : environment) (a b : Z * BusStop) : MatrixEntry :=
  {| entry_from := a.1; entry_to := b.1;
     entry_distance_km :=
       Some (py_round (haversine_km (math env) (latitude a.2) (longitude a.2)
                         (latitude b.2) (longitude b.2)) 5);
     entry_duration_min := None;
     entry_method := "haversine" |}.

(** The stops other than the one of index [i], in order. *)
Definition others (i : nat) (all : list (nat * (Z * BusStop))) : list (Z * BusStop) :=
  snd <$> filter (fun jb => jb.1 ≠ i) all.



(** The request ors_directions_for_stops sends for [stops]. *)
Definition directions_request (env : environment) (stops0 : list StopInfo)
    (profile : string) : request :=
  {| req_url := ors_url profile;
     req_coordinates := (fun s => (info_longitude s, info_latitude s)) <$> stops0;
     req_authorization := OPENROUTESERVICE_API_KEY env;
     req_timeout := 20 |}.

(** ** Stores and environments of the examples *)

Definition stop_at (n : string) (lat lon : Q) : BusStop :=
  {| name := n; latitude := lat; longitude := lon |}.

Definition test_stops : gmap Z BusStop :=
  <[1 := stop_at "A" 12 75]> (<[2 := stop_at "B" (12001 # 1000) (75001 # 1000)]>
  (<[3 := stop_at "C" (12002 # 1000) (75002 # 1000)]>
  (<[4 := stop_at "D" (12003 # 1000) (75003 # 1000)]> ∅))).

Definition mk_route (pk u v : Z) (w : Q) (t : option Q) : Route :=
  {| route_pk := pk; start_stop_id := u; end_stop_id := v;
     distance := w; duration := t |}.

Definition test_basic : Store :=
  {| bus_stops := test_stops;
     routes := [mk_route 1 1 2 1 None; mk_route 2 2 3 1 None; mk_route 3 1 3 5 None] |}.

Definition test_weights : Store :=
  {| bus_stops := test_stops;
     routes := [mk_route 1 1 3 1 None; mk_route 2 1 2 2 None; mk_route 3 2 3 2 None] |}.


(** An approximate [math] module, enough to run the examples: truncated
    series, and the square root to twelve decimals. *)
Definition example_math : math_module :=
  {| math_radians := fun x => (x * (355 # 113) / 180)%Q;
     math_sin := fun x => (x - x * x * x / 6)%Q;
     math_cos := fun x => (1 - x * x / 2 + x * x * x * x / 24)%Q;
     math_sqrt := fun x => Z.sqrt (Qnum x * 10 ^ 24 / Z.pos (Qden x)) # 10 ^ 12;
     math_atan2 := fun y x =>
       if Qle_bool x 0 then 0%Q
       else (y / x - (y / x) * (y / x) * (y / x) / 3)%Q |}.

(** An environment with a credential whose provider answers every request
    with a body that is not JSON. *)
Definition garbled_env : environment :=
  {| OPENROUTESERVICE_API_KEY := "key";
     urlopen := fun _ _ => RespBody None;
     float_of_text := fun _ => None;
     utc_now := "2024-01-01T00:00:00+00:00";
     data_dir_writable := true;
     math := example_math |}.

(** The same with no credential. *)
Definition no_key_env : environment :=
  {| OPENROUTESERVICE_API_KEY := "";
     urlopen := fun _ _ => RespBody None;
     float_of_text := fun _ => None;
     utc_now := "2024-01-01T00:00:00+00:00";
     data_dir_writable := true;
     math := example_math |}.

Definition fresh_world (db : Store) : world :=
  {| store := db; sent := []; slept := [];
     ors_stats_json := None; ors_matrix_json := None |}.

(** The provider cannot be reached. *)
Definition down_env : environment :=
  {| OPENROUTESERVICE_API_KEY := "key";
     urlopen := fun _ _ => RespURLError;
     float_of_text := fun _ => None;
     utc_now := "2024-01-01T00:00:00+00:00";
     data_dir_writable := true;
     math := example_math |}.

(** The provider answers every request with a route of 1500 m and 120 s. *)
Definition route_document : json :=
  JObj [("features",
         JArr [JObj [("properties",
                      JObj [("summary",
                             JObj [("distance", JNum 1500);
                                   ("duration", JNum 120)])])]])].

Definition up_env : environment :=
  {| OPENROUTESERVICE_API_KEY := "key";
     urlopen := fun _ _ => RespBody (Some route_document);
     float_of_text := fun _ => None;
     utc_now := "2024-01-01T00:00:00+00:00";
     data_dir_writable := true;
     math := example_math |}.

Definition default_refresh (dry : bool) : refresh_options :=
  {| refresh_sleep := 2 # 10; refresh_limit := 0; refresh_dry := dry;
     refresh_skip_existing := false; refresh_timeout := 10; refresh_retries := 1 |}.

(** A world that holds the artifact of an earlier run. *)
Definition world_after_run (db : Store) : world :=
  {| store := db; sent := []; slept := [];
     ors_stats_json := Some {| stats_updated := 7; stats_skipped := 0;
                               stats_timestamp := "2023-12-31T00:00:00+00:00" |};
     ors_matrix_json := None |}.

Definition three_stops : Store :=
  {| bus_stops := <[1 := stop_at "A" 12 75]>
                  (<[2 := stop_at "B" (12001 # 1000) (75001 # 1000)]>
                  (<[3 := stop_at "C" (12002 # 1000) (75002 # 1000)]> ∅));
     routes := [] |}.

Definition default_matrix (limit : Z) : matrix_options :=
  {| matrix_sleep := 15 # 100; matrix_limit := limit; matrix_dry := false;
     matrix_timeout := 8; matrix_retries := 1 |}.


(** ** Definitions used to state further properties *)

(** The world after one more request. *)
Definition after_request (w : world) (req : request) : world :=
  {| store := store w; sent := sent w ++ [req]; slept := slept w;
     ors_stats_json := ors_stats_json w; ors_matrix_json := ors_matrix_json w |}.


(** The request of the two batch jobs for a pair of stops. *)
Definition pair_request (key : string) (a b : BusStop) (timeout : Z) : request :=
  {| req_url := ors_url "driving-car";
     req_coordinates := [(longitude a, latitude a); (longitude b, latitude b)];
     req_authorization := key; req_timeout := timeout |}.

(** The world after [k] requests [req] with a sleep between them. *)
Definition after_attempts (w : world) (req : request) (sleep_s : Q) (k : nat) : world :=
  {| store := store w;
     sent := sent w ++ replicate k req;
     slept := slept w ++ replicate (if Qltb 0 sleep_s then k - 1 else 0) sleep_s;
     ors_stats_json := ors_stats_json w; ors_matrix_json := ors_matrix_json w |}.

(** A provider call that sends [req] and changes nothing else. *)
Definition sends_once (fetch : M (option (Q * Q))) (req : request) : Prop :=
  forall w, (fetch w).2 = after_request w req.

(** What identifies an edge and links it to its stops. *)
Definition skeleton (rs : list Route) : list (Z * Z * Z) :=
  (fun r => (route_pk r, start_stop_id r, end_stop_id r)) <$> rs.

(** The world after the body of the refresher's loop for [row], once the
    provider has answered. *)
Definition after_row (opts : refresh_options) (row : Route * BusStop * BusStop)
    (answer : option (Q * Q)) (w1 : world) : world :=
  let w2 := match answer with
            | Some (d_km, dur_min) =>
                if refresh_dry opts then w1
                else (save_route row.1.1 d_km dur_min w1).2
            | None => w1
            end in
  if Qltb 0 (refresh_sleep opts) then (sleep (refresh_sleep opts) w2).2 else w2.

(** The primary keys of the edges of a pass. *)
Definition pass_pks (rows : list (Route * BusStop * BusStop)) : list Z :=
  (fun row => route_pk row.1.1) <$> rows.

(** The row [r] with the provider's values stored. *)
Definition with_values (r : Route) (d_km dur_min : Q) : Route :=
  {| route_pk := route_pk r; start_stop_id := start_stop_id r;
     end_stop_id := end_stop_id r; distance := d_km; duration := Some dur_min |}.

(** How many entries the matrix builder can still append when [count]
    have been appended: no bound with [--limit 0]; otherwise the loops
    stop after the entry that brings the count to the limit, and the test
    comes after an entry has been appended, so at least one is. *)
Definition allowance (opts : matrix_options) (count : Z) : option nat :=
  if matrix_limit opts =? 0 then None
  else Some (Z.to_nat (Z.max 1 (matrix_limit opts - count))).

Definition capped {A} (al : option nat) (l : list A) : list A :=
  match al with None => l | Some k => take k l end.

(** The ordered pairs of the two loops: for each stop of [todo] in order,
    the stops of [all] at another index, in order. *)
Definition stop_pairs (all todo : list (nat * (Z * BusStop)))
  : list ((Z * BusStop) * (Z * BusStop)) :=
  ia ← todo; (fun b => (ia.2, b)) <$> others ia.1 all.

(** The entry of the pair [(a, b)]: the estimate, or the provider's
    values rounded. *)
Definition entry_for (env : environment) (a b : Z * BusStop) (e : MatrixEntry) : Prop :=
  e = haversine_entry env a b
  \/ exists d t,
       e = {| entry_from := a.1; entry_to := b.1;
              entry_distance_km := Some (py_round d 5);
              entry_duration_min := Some (py_round t 2);
              entry_method := "ors" |}.

(** ** transit/views.py: stats *)

(** The response of the stats endpoint: its status and the three keys of
    its dictionary. *)
Record StatsResponse := {
  stats_status : Z;
  stats_nodes : Z;
  stats_edges : Z;
  stats_ors : option RunStats;
}.

(** Reading transit/data/ors_stats.json: [None] when the file does not
    exist.  The artifact of the model is always one the refresher wrote, so
    [json.load] gives back the dictionary written and the [except] branch
    is not taken. *)
Definition read_stats : M (option RunStats) :=
  fun w => (Return (ors_stats_json w), w).

Definition stats : M StatsResponse :=
  nodes ← with_store (fun db => Return (Z.of_nat (size (bus_stops db))));
  edges ← with_store (fun db => Return (Z.of_nat (length (routes db))));
  ors_info ← read_stats;
  mret {| stats_status := HTTP_200_OK; stats_nodes := nodes; stats_edges := edges;
          stats_ors := ors_info |}.

(** The options [opts] with [--dry] added. *)
Definition as_dry (opts : refresh_options) : refresh_options :=
  {| refresh_sleep := refresh_sleep opts; refresh_limit := refresh_limit opts;
     refresh_dry := true; refresh_skip_existing := refresh_skip_existing opts;
     refresh_timeout := refresh_timeout opts; refresh_retries := refresh_retries opts |}.

(** Two worlds that differ at most in their stores. *)
Definition same_outside (w1 w2 : world) : Prop :=
  sent w1 = sent w2 /\ slept w1 = slept w2
  /\ ors_stats_json w1 = ors_stats_json w2
  /\ ors_matrix_json w1 = ors_matrix_json w2.

(** A computation that does not look at the store. *)
Definition store_blind {A} (m : M A) : Prop :=
  forall w1 w2, same_outside w1 w2 ->
    (m w1).1 = (m w2).1 /\ same_outside (m w1).2 (m w2).2.
(** * Properties *)

(** ** Comparisons *)

Lemma Qltb_lt x y : Qltb x y = true <-> (x < y)%Q.
Proof.
  unfold Qltb. rewrite negb_true_iff, <- not_true_iff_false, Qle_bool_iff.
  split; [apply Qnot_le_lt | apply Qlt_not_le].
Qed.

Lemma Qltb_ge x y : Qltb x y = false <-> (y <= x)%Q.
Proof.
  unfold Qltb. rewrite negb_false_iff. apply Qle_bool_iff.
Qed.

(** ** The scenarios of transit/tests.py *)

Example test_shortest_path_basic :
  match dijkstra_shortest_path test_basic 1 3 with
  | Return (Some r) => path r = [1; 2; 3] /\ (total_distance r == 2)%Q
  | _ => False
  end.
Proof. vm_compute. split; reflexivity. Qed.

Example test_edge_weight_correctness :
  match dijkstra_shortest_path test_weights 1 3 with
  | Return (Some r) => path r = [1; 3] /\ (total_distance r == 1)%Q
  | _ => False
  end.
Proof. vm_compute. split; reflexivity. Qed.

(** ** The priority queue *)

Lemma entry_ltb_false_le (a b : entry) : entry_ltb a b = false -> (b.1 <= a.1)%Q.
Proof.
  unfold entry_ltb. intros H. apply orb_false_iff in H as [H _].
  by apply Qltb_ge.
Qed.

Lemma entry_ltb_true_le (a b : entry) : entry_ltb a b = true -> (a.1 <= b.1)%Q.
Proof.
  unfold entry_ltb. intros H. apply orb_true_iff in H as [H | H].
  - apply Qlt_le_weak. by apply Qltb_lt.
  - apply andb_true_iff in H as [H _]. apply Qeq_bool_iff in H.
    rewrite H. apply Qle_refl.
Qed.

(** [heap_select] returns an entry of the queue, takes exactly it out, and no
    entry has a smaller distance. *)
Lemma heap_select_spec heap0 : forall e m rest,
  heap_select e heap0 = (m, rest) ->
  e :: heap0 ≡ₚ m :: rest /\ forall x, x ∈ e :: heap0 -> (m.1 <= x.1)%Q.
Proof.
  induction heap0 as [| x heap' IH]; intros e m rest Hsel; simpl in Hsel.
  - inversion Hsel; subst. split; [done |].
    intros y Hy. apply list_elem_of_singleton in Hy as ->. apply Qle_refl.
  - destruct (entry_ltb x e) eqn:Hlt.
    + destruct (heap_select x heap') as [m' rest'] eqn:Hrec.
      inversion Hsel; subst. destruct (IH _ _ _ Hrec) as [Hperm Hmin].
      split.
      * rewrite Hperm. apply Permutation_swap.
      * intros y Hy. apply elem_of_cons in Hy as [-> | Hy].
        -- eapply Qle_trans; [apply Hmin; left | by apply entry_ltb_true_le].
        -- by apply Hmin.
    + destruct (heap_select e heap') as [m' rest'] eqn:Hrec.
      inversion Hsel; subst. destruct (IH _ _ _ Hrec) as [Hperm Hmin].
      split.
      * rewrite (Permutation_swap x e heap'), Hperm. apply Permutation_swap.
      * intros y Hy. apply elem_of_cons in Hy as [-> | Hy].
        -- apply Hmin; left.
        -- apply elem_of_cons in Hy as [-> | Hy].
           ++ eapply Qle_trans; [apply Hmin; left | by apply entry_ltb_false_le].
           ++ apply Hmin. by right.
Qed.

Lemma heappop_spec h d u h' :
  heappop h = Some ((d, u), h') ->
  h ≡ₚ (d, u) :: h' /\ forall d' v, (d', v) ∈ h -> (d <= d')%Q.
Proof.
  destruct h as [| x h0]; [done |]. simpl. intros [= Hsel].
  destruct (heap_select_spec _ _ _ _ Hsel) as [Hperm Hmin].
  split; [done |]. intros d' v Hin. apply (Hmin (d', v) Hin).
Qed.

Lemma heappop_None h : heappop h = None <-> h = [].
Proof. destruct h; simpl; split; congruence. Qed.

(** ** The graph *)

Lemma graph_get_add_edge g u v w x :
  graph_get (add_edge g u v w) x
  = graph_get g x ++ (if decide (u = x) then [(v, w)] else []).
Proof.
  unfold graph_get, add_edge. case_decide as Hx.
  - subst. by rewrite lookup_insert_eq.
  - rewrite lookup_insert_ne by done. by rewrite app_nil_r.
Qed.

Lemma graph_get_foldl (l : list (Route * BusStop * BusStop)) : forall g x,
  graph_get
    (foldl (fun graph '(edge, _, _) =>
              add_edge graph (start_stop_id edge) (end_stop_id edge) (distance edge))
           g l) x
  = graph_get g x
    ++ (snd <$> filter (fun a => a.1 = x)
          ((fun '(r, _, _) => (start_stop_id r, (end_stop_id r, distance r))) <$> l)).
Proof.
  induction l as [| [[r a] b] l IH]; intros g x; simpl.
  - by rewrite app_nil_r.
  - rewrite IH, graph_get_add_edge, <- app_assoc. f_equal.
    rewrite filter_cons. simpl. by case_decide.
Qed.

Lemma graph_get_build_graph db x :
  graph_get (build_graph db) x = snd <$> filter (fun a => a.1 = x) (arcs db).
Proof.
  unfold build_graph. rewrite graph_get_foldl. unfold graph_get at 1.
  by rewrite lookup_empty.
Qed.

Lemma elem_of_graph_get db u v w :
  (v, w) ∈ graph_get (build_graph db) u <-> (u, (v, w)) ∈ arcs db.
Proof.
  rewrite graph_get_build_graph, list_elem_of_fmap. split.
  - intros [[u' vw] [Heq Hin]]. simpl in Heq. subst vw.
    apply list_elem_of_filter in Hin as [Hu Hin]. simpl in Hu. by subst.
  - intros Hin. exists (u, (v, w)). split; [done |].
    by apply list_elem_of_filter.
Qed.

(** An arc of the graph is a persisted edge, with that edge's distance. *)
Lemma elem_of_arcs db u v w :
  (u, (v, w)) ∈ arcs db ->
  exists r, r ∈ routes db /\ start_stop_id r = u /\ end_stop_id r = v /\ distance r = w.
Proof.
  unfold arcs. rewrite list_elem_of_fmap. intros [[[r a] b] [Heq Hin]].
  inversion Heq; subst. exists r. split; [| done].
  unfold Route_select_related in Hin. apply list_elem_of_omap in Hin as [r' [Hr' Hj]].
  destruct (bus_stops db !! start_stop_id r'), (bus_stops db !! end_stop_id r');
    simplify_eq. done.
Qed.

Lemma arcs_complete db r :
  foreign_keys_ok db -> r ∈ routes db ->
  (start_stop_id r, (end_stop_id r, distance r)) ∈ arcs db.
Proof.
  intros Hfk Hr. destruct (Hfk r Hr) as [[a Ha] [b Hb]].
  unfold arcs. apply list_elem_of_fmap. exists (r, a, b). split; [done |].
  unfold Route_select_related. apply list_elem_of_omap. exists r. split; [done |].
  by rewrite Ha, Hb.
Qed.

Lemma length_arcs db : (length (arcs db) <= length (routes db))%nat.
Proof.
  unfold arcs, Route_select_related. rewrite length_fmap.
  generalize (fun r =>
    match bus_stops db !! start_stop_id r, bus_stops db !! end_stop_id r with
    | Some a, Some b => Some (r, a, b)
    | _, _ => None
    end).
  intros f. induction (routes db) as [| r l IH]; [done |].
  change (omap f (r :: l)) with (from_option (fun y => y :: omap f l) (omap f l) (f r)).
  destruct (f r); simpl; lia.
Qed.

(** ** The search loop *)

(** Invariant rule: [Inv] holds at the top of every turn, [Post] when the
    loop is left through the empty queue or through [break]. *)
Lemma search_loop_rule (Inv Post : search -> Prop) graph destination_id :
  (forall st, Inv st -> heap st = [] -> Post st) ->
  (forall st d u heap',
      Inv st -> heappop (heap st) = Some ((d, u), heap') ->
      u ∈ visited st -> Inv (drop_entry st heap')) ->
  (forall st d heap',
      Inv st -> heappop (heap st) = Some ((d, destination_id), heap') ->
      destination_id ∉ visited st -> Post (settle st heap' destination_id)) ->
  (forall st d u heap',
      Inv st -> heappop (heap st) = Some ((d, u), heap') ->
      u ∉ visited st -> u ≠ destination_id ->
      Inv (relax d u (graph_get graph u) (settle st heap' u))) ->
  forall fuel st st',
    Inv st -> search_loop fuel graph destination_id st = Some st' -> Post st'.
Proof.
  intros Hempty Hstale Hbreak Hrelax.
  induction fuel as [| fuel IH]; intros st st' HI Hrun; [done |].
  simpl in Hrun. destruct (heappop (heap st)) as [[[d u] heap'] |] eqn:Hpop.
  - destruct (decide (u ∈ visited st)) as [Hvis | Hvis].
    + eapply IH; [| exact Hrun]. eapply Hstale; eauto.
    + destruct (decide (u = destination_id)) as [-> | Hne].
      * inversion Hrun; subst. eapply Hbreak; eauto.
      * eapply IH; [| exact Hrun]. eapply Hrelax; eauto.
  - inversion Hrun; subst. apply Hempty; [done |]. by apply heappop_None.
Qed.

Lemma relax_visited d u adj : forall st, visited (relax d u adj st) = visited st.
Proof.
  unfold relax. induction adj as [| [v w] adj IH]; intros st; [done |].
  simpl. rewrite IH. unfold relax_edge.
  by destruct (match dist st !! v with None => true | Some dv => Qltb (d + w) dv end).
Qed.

Lemma relax_heap_length d u adj : forall st,
  (length (heap (relax d u adj st)) <= length (heap st) + length adj)%nat.
Proof.
  unfold relax. induction adj as [| [v w] adj IH]; intros st; simpl; [lia |].
  etrans; [apply IH |]. unfold relax_edge.
  destruct (match dist st !! v with None => true | Some dv => Qltb (d + w) dv end);
    simpl; lia.
Qed.

Lemma pending_settle db vis u :
  u ∉ vis ->
  (length (pending db ({[u]} ∪ vis)) + length (graph_get (build_graph db) u)
   = length (pending db vis))%nat.
Proof.
  intros Hu. rewrite graph_get_build_graph, length_fmap. unfold pending.
  induction (arcs db) as [| a l IH]; [done |].
  rewrite !filter_cons.
  destruct (decide (a.1 = u)) as [Ha | Ha].
  - rewrite decide_False
      by (intros Hn; apply Hn, elem_of_union_l; by apply elem_of_singleton).
    rewrite decide_True by (by rewrite Ha).
    simpl. lia.
  - destruct (decide (a.1 ∉ vis)) as [Hv | Hv].
    + rewrite decide_True
        by (apply not_elem_of_union; split;
            [by apply not_elem_of_singleton | done]).
      simpl. lia.
    + rewrite decide_False
        by (intros Hn; apply Hv; intros Hin; by apply Hn, elem_of_union_r).
      lia.
Qed.

(** The loop ends: each turn takes one entry out of the queue, and an
    entry is pushed only for an arc that leaves the node being settled. *)
Lemma search_loop_terminates db destination_id : forall fuel st,
  (length (heap st) + length (pending db (visited st)) < fuel)%nat ->
  is_Some (search_loop fuel (build_graph db) destination_id st).
Proof.
  induction fuel as [| fuel IH]; intros st Hfuel; [lia |].
  simpl. destruct (heappop (heap st)) as [[[d u] heap'] |] eqn:Hpop; [| done].
  apply heappop_spec in Hpop as [Hperm _].
  apply Permutation_length in Hperm. simpl in Hperm.
  destruct (decide (u ∈ visited st)) as [Hvis | Hvis].
  - apply IH. simpl. lia.
  - destruct (decide (u = destination_id)); [done |].
    apply IH. rewrite relax_visited. simpl.
    pose proof (relax_heap_length d u (graph_get (build_graph db) u)
      {| dist := dist st; prev := prev st; heap := heap';
         visited := {[u]} ∪ visited st |}) as Hlen.
    simpl in Hlen. pose proof (pending_settle db (visited st) u Hvis). lia.
Qed.

Lemma search_loop_initial db origin_id destination_id :
  is_Some (search_loop (search_fuel db) (build_graph db) destination_id
             (initial_search origin_id)).
Proof.
  apply search_loop_terminates. unfold search_fuel, pending. simpl.
  apply -> Nat.succ_lt_mono. apply Nat.lt_succ_r.
  etrans; [apply length_filter | apply length_arcs].
Qed.

(** ** Dijkstra's invariant *)

Section Dijkstra.
Variable graph : gmap Z (list (Z * Q)).
Variables origin_id destination_id : Z.
Hypothesis nonneg : forall u v w, (v, w) ∈ graph_get graph u -> (0 <= w)%Q.

Lemma chain_nonneg P v l x : chain graph P origin_id v l x -> (0 <= x)%Q.
Proof.
  induction 1 as [| v u l c w _ _ IH Harc]; [lra |].
  apply nonneg in Harc. lra.
Qed.

Lemma chain_head P v l x : chain graph P origin_id v l x -> exists l', l = v :: l'.
Proof. destruct 1; eauto. Qed.

(** A chain only reads the predecessor map at its own nodes. *)
Lemma chain_frame P P' v l x :
  chain graph P origin_id v l x ->
  (forall y, y ∈ l -> P' !! y = P !! y) ->
  chain graph P' origin_id v l x.
Proof.
  induction 1 as [Ho | v u l c w Hv _ IH Harc]; intros Hsame.
  - constructor. rewrite Hsame; [done | left].
  - econstructor; [| apply IH | done].
    + rewrite Hsame; [done | left].
    + intros y Hy. apply Hsame. by right.
Qed.

Lemma chain_path P v l x :
  chain graph P origin_id v l x -> path_to graph origin_id v (reverse l) x.
Proof.
  induction 1 as [| v u l c w _ _ IH Harc].
  - constructor.
  - rewrite reverse_cons. econstructor; eauto.
Qed.

Lemma relax_inv_weaken d u (Done Done' : Z * Q -> Prop) st :
  (forall e, Done' e -> Done e) ->
  relax_inv graph origin_id destination_id d u Done st ->
  relax_inv graph origin_id destination_id d u Done' st.
Proof. intros Hsub [? ? ? ? ? ?]. constructor; auto. Qed.

Lemma relax_edge_inv d u Done st v w :
  (v, w) ∈ graph_get graph u ->
  relax_inv graph origin_id destination_id d u Done st ->
  relax_inv graph origin_id destination_id d u
    (fun e => Done e \/ e = (v, w)) (relax_edge d u st (v, w)).
Proof.
  intros Harc [[Ho Hch Hq He Hs Hd] Hu Hdu Hbelow Hold Hdone].
  pose proof (nonneg _ _ _ Harc) as Hw.
  unfold relax_edge.
  destruct (match dist st !! v with
            | None => true | Some dv => Qltb (d + w) dv end) eqn:Hupd.
  - (* dist[v] = alt; prev[v] = u; push *)
    assert (Hv : v ∉ visited st).
    { intros Hv. destruct (Hbelow v Hv) as [x [Hx Hxd]]. rewrite Hx in Hupd.
      apply Qltb_lt in Hupd. lra. }
    assert (Hvu : v ≠ u) by (intros E; by subst).
    destruct (Hch u d Hdu) as [lu [Hlu Hlu_vis]].
    pose proof (chain_nonneg _ _ _ _ Hlu) as Hd0.
    assert (Hvo : v ≠ origin_id).
    { intros ->. rewrite Ho in Hupd. apply Qltb_lt in Hupd. lra. }
    assert (Hlu_v : forall y, y ∈ lu -> y ≠ v).
    { intros y Hy ->. destruct (chain_head _ _ _ _ Hlu) as [l' ->].
      apply elem_of_cons in Hy as [-> | Hy]; [done |]. apply Hv, Hlu_vis, Hy. }
    constructor; simpl.
    + constructor; simpl.
      * by rewrite lookup_insert_ne.
      * intros y x Hy. destruct (decide (y = v)) as [-> | Hne].
        -- rewrite lookup_insert_eq in Hy. inversion Hy; subst x.
           exists (v :: lu). split.
           ++ econstructor; [apply lookup_insert_eq | | done].
              apply (chain_frame _ _ _ _ _ Hlu). intros z Hz.
              apply lookup_insert_ne. intros E. by apply (Hlu_v z).
           ++ simpl. intros z Hz. destruct (chain_head _ _ _ _ Hlu) as [l' ->].
              apply elem_of_cons in Hz as [-> | Hz]; [done |]. by apply Hlu_vis.
        -- rewrite lookup_insert_ne in Hy by done.
           destruct (Hch y x Hy) as [l [Hl Hl_vis]]. exists l. split; [| done].
           apply (chain_frame _ _ _ _ _ Hl). intros z Hz.
           apply lookup_insert_ne. intros E. subst z.
           destruct (chain_head _ _ _ _ Hl) as [l' ->].
           apply elem_of_cons in Hz as [E | Hz]; [done |]. apply Hv, Hl_vis, Hz.
      * intros y x Hy Hyv. destruct (decide (y = v)) as [-> | Hne].
        -- rewrite lookup_insert_eq in Hy. inversion Hy; subst. left.
        -- rewrite lookup_insert_ne in Hy by done. right. by apply Hq.
      * intros d' y Hin. unfold heappush in Hin.
        apply elem_of_cons in Hin as [Heq | Hin].
        -- inversion Heq; subst. exists (d + w)%Q. rewrite lookup_insert_eq. auto.
        -- destruct (He d' y Hin) as [x [Hx Hxd]].
           destruct (decide (y = v)) as [-> | Hne].
           ++ exists (d + w)%Q. rewrite lookup_insert_eq. split; [done |].
              rewrite Hx in Hupd. apply Qltb_lt in Hupd. left.
              destruct Hxd as [Hxd | ->]; [lra | done].
           ++ exists x. by rewrite lookup_insert_ne.
      * intros y Hy. destruct (Hs y Hy) as [x [Hx Hmin]]. exists x.
        rewrite lookup_insert_ne by (intros E; by subst). split; [done |].
        intros d' v' Hin. unfold heappush in Hin.
        apply elem_of_cons in Hin as [Heq | Hin]; [| by eapply Hmin].
        inversion Heq; subst. destruct (Hbelow y Hy) as [x' [Hx' Hle]].
        rewrite Hx in Hx'. inversion Hx'; subst. lra.
      * done.
    + done.
    + by rewrite lookup_insert_ne.
    + intros y Hy. destruct (Hbelow y Hy) as [x [Hx Hle]]. exists x.
      by rewrite lookup_insert_ne by (intros E; by subst).
    + intros a b w' Ha Hau Hab. destruct (Hold a b w' Ha Hau Hab) as [xa [xb [Hxa [Hxb Hle]]]].
      unfold relaxed; simpl.
      exists xa. rewrite lookup_insert_ne by (intros E; by subst).
      destruct (decide (b = v)) as [-> | Hne].
      * exists (d + w)%Q. rewrite lookup_insert_eq. split; [done |]. split; [done |].
        rewrite Hxb in Hupd. apply Qltb_lt in Hupd. lra.
      * exists xb. by rewrite lookup_insert_ne.
    + intros b w' [Hb | Heq].
      * destruct (Hdone b w' Hb) as [xa [xb [Hxa [Hxb Hle]]]].
        unfold relaxed; simpl.
        exists xa. rewrite lookup_insert_ne by done.
        destruct (decide (b = v)) as [-> | Hne].
        -- exists (d + w)%Q. rewrite lookup_insert_eq. split; [done |]. split; [done |].
           rewrite Hxb in Hupd. apply Qltb_lt in Hupd. lra.
        -- exists xb. by rewrite lookup_insert_ne.
      * inversion Heq; subst. unfold relaxed; simpl. exists d, (d + w)%Q.
        rewrite lookup_insert_ne by done. rewrite lookup_insert_eq.
        split; [done |]. split; [done | lra].
  - (* no change *)
    constructor; try done.
    + intros b w' [Hb | Heq]; [by apply Hdone |].
      inversion Heq; subst. destruct (dist st !! v) as [dv |] eqn:Hdv; [| done].
      apply Qltb_ge in Hupd. exists d, dv. done.
Qed.

Lemma relax_preserves d u adj : forall (Done : Z * Q -> Prop) st,
  (forall e, e ∈ adj -> e ∈ graph_get graph u) ->
  relax_inv graph origin_id destination_id d u Done st ->
  relax_inv graph origin_id destination_id d u
    (fun e => Done e \/ e ∈ adj) (relax d u adj st).
Proof.
  unfold relax. induction adj as [| [v w] adj IH]; intros Done st Hadj Hinv; simpl.
  - eapply relax_inv_weaken; [| exact Hinv]. simpl. intros e [He | He]; [done |].
    by apply elem_of_nil in He.
  - apply (relax_inv_weaken d u (fun e => (Done e \/ e = (v, w)) \/ e ∈ adj));
      [| apply IH].
    + simpl. intros e [He | He]; [left; left; exact He |].
      apply elem_of_cons in He as [-> | He]; [left; by right | by right].
    + intros e He. apply Hadj. by right.
    + apply relax_edge_inv; [| done]. apply Hadj. left.
Qed.

Lemma loop_inv_initial :
  origin_id ≠ destination_id -> loop_inv graph origin_id destination_id (initial_search origin_id).
Proof.
  intros Hne. split; [constructor |]; simpl.
  - apply lookup_singleton_eq.
  - intros v x Hv. apply lookup_singleton_Some in Hv as [<- <-].
    exists [origin_id]. split; [| intros y Hy; by apply elem_of_nil in Hy].
    constructor. apply lookup_singleton_eq.
  - intros v x Hv _. apply lookup_singleton_Some in Hv as [<- <-]. left.
  - intros d v Hin. apply list_elem_of_singleton in Hin. inversion Hin; subst.
    exists 0%Q. rewrite lookup_singleton_eq. auto.
  - intros v Hv. by apply not_elem_of_empty in Hv.
  - apply not_elem_of_empty.
  - intros u v w Hu. by apply not_elem_of_empty in Hu.
Qed.

(** The entry popped for a node that is not settled carries its distance. *)
Lemma popped_dist st d u heap' :
  search_inv graph origin_id destination_id st ->
  heappop (heap st) = Some ((d, u), heap') -> u ∉ visited st ->
  dist st !! u = Some d.
Proof.
  intros [_ _ Hq He _ _] Hpop Hu. apply heappop_spec in Hpop as [Hperm Hmin].
  destruct (He d u) as [x [Hx Hxd]]; [rewrite Hperm; left |].
  destruct Hxd as [Hlt | ->]; [| done].
  pose proof (Hmin x u (Hq u x Hx Hu)). lra.
Qed.

(** Every path from the origin crosses the frontier: it has cost at least
    the recorded distance of a node that is not settled, or of its end. *)
Lemma frontier st v p c :
  loop_inv graph origin_id destination_id st -> path_to graph origin_id v p c ->
  exists y xy, dist st !! y = Some xy /\ (xy <= c)%Q /\ (y ∉ visited st \/ y = v).
Proof.
  intros [[Ho _ _ _ _ _] Hrel]. induction 1 as [| u p c v w _ IH Harc].
  - exists origin_id, 0%Q. split; [done |]. split; [lra | by right].
  - pose proof (nonneg _ _ _ Harc) as Hw.
    destruct IH as [y [xy [Hy [Hle Hcase]]]].
    destruct (decide (y ∈ visited st)) as [Hvis | Hvis].
    + destruct Hcase as [? | ->]; [done |].
      destruct (Hrel u v w Hvis Harc) as [xu [xv [Hxu [Hxv Hle']]]].
      rewrite Hy in Hxu. inversion Hxu; subst xu.
      exists v, xv. split; [done |]. split; [lra | by right].
    + exists y, xy. split; [done |]. split; [lra | by left].
Qed.

Lemma loop_inv_empty st : loop_inv graph origin_id destination_id st -> heap st = [] -> loop_post graph origin_id destination_id st.
Proof.
  intros [[_ _ Hq _ _ Hd] _] Hheap x Hx.
  pose proof (Hq _ _ Hx Hd) as Hin. rewrite Hheap in Hin.
  by apply elem_of_nil in Hin.
Qed.

Lemma loop_inv_stale st d u heap' :
  loop_inv graph origin_id destination_id st -> heappop (heap st) = Some ((d, u), heap') ->
  u ∈ visited st -> loop_inv graph origin_id destination_id (drop_entry st heap').
Proof.
  intros [[Ho Hch Hq He Hs Hd] Hrel] Hpop Hu.
  apply heappop_spec in Hpop as [Hperm Hmin].
  split; [constructor |]; simpl; try done.
  - intros v x Hv Hvis. pose proof (Hq v x Hv Hvis) as Hin.
    rewrite Hperm in Hin. apply elem_of_cons in Hin as [Heq | Hin]; [| done].
    inversion Heq; subst. done.
  - intros d' v Hin. apply He. rewrite Hperm. by right.
  - intros v Hv. destruct (Hs v Hv) as [x [Hx Hle]]. exists x. split; [done |].
    intros d' v' Hin. apply (Hle d' v'). rewrite Hperm. by right.
Qed.

Lemma loop_inv_break st d heap' :
  loop_inv graph origin_id destination_id st -> heappop (heap st) = Some ((d, destination_id), heap') ->
  destination_id ∉ visited st -> loop_post graph origin_id destination_id (settle st heap' destination_id).
Proof.
  intros Hinv Hpop Hu x Hx. simpl in *.
  pose proof (popped_dist _ _ _ _ (proj1 Hinv) Hpop Hu) as Hd.
  rewrite Hd in Hx. inversion Hx; subst x.
  destruct Hinv as [[Ho Hch Hq He Hs Hdest] Hrel].
  split.
  - destruct (Hch _ _ Hd) as [l [Hl _]]. by exists l.
  - intros p c Hp. apply heappop_spec in Hpop as [Hperm Hmin].
    destruct (frontier st destination_id p c) as [y [xy [Hy [Hle Hcase]]]];
      [by split; [constructor |] | done |].
    assert (Hyv : y ∉ visited st) by (destruct Hcase as [? | ->]; done).
    pose proof (Hmin xy y (Hq y xy Hy Hyv)). lra.
Qed.

Lemma loop_inv_relax st d u heap' :
  loop_inv graph origin_id destination_id st -> heappop (heap st) = Some ((d, u), heap') ->
  u ∉ visited st -> u ≠ destination_id ->
  loop_inv graph origin_id destination_id (relax d u (graph_get graph u) (settle st heap' u)).
Proof.
  intros Hinv Hpop Hu Hne.
  pose proof (popped_dist _ _ _ _ (proj1 Hinv) Hpop Hu) as Hd.
  destruct Hinv as [[Ho Hch Hq He Hs Hdest] Hrel].
  apply heappop_spec in Hpop as [Hperm Hmin].
  assert (Hstart : relax_inv graph origin_id destination_id d u
                     (fun _ => False) (settle st heap' u)).
  { constructor; simpl.
    - constructor; simpl.
      + done.
      + intros v x Hv. destruct (Hch v x Hv) as [l [Hl Hvis]]. exists l.
        split; [done |]. intros y Hy. apply elem_of_union_r. by apply Hvis.
      + intros v x Hv Hvis. apply not_elem_of_union in Hvis as [Hvu Hvis].
        apply not_elem_of_singleton in Hvu.
        pose proof (Hq v x Hv Hvis) as Hin. rewrite Hperm in Hin.
        apply elem_of_cons in Hin as [Heq | Hin]; [| done].
        inversion Heq; subst. done.
      + intros d' v Hin. apply He. rewrite Hperm. by right.
      + intros v Hv. apply elem_of_union in Hv as [Hv | Hv].
        * apply elem_of_singleton in Hv as ->. exists d. split; [done |].
          intros d' v' Hin. apply (Hmin d' v'). rewrite Hperm. by right.
        * destruct (Hs v Hv) as [x [Hx Hle]]. exists x. split; [done |].
          intros d' v' Hin. apply (Hle d' v'). rewrite Hperm. by right.
      + intros Hin. apply elem_of_union in Hin as [Hin | Hin]; [| done].
        apply elem_of_singleton in Hin. by subst.
    - apply elem_of_union_l. by apply elem_of_singleton.
    - done.
    - intros y Hy. apply elem_of_union in Hy as [Hy | Hy].
      + apply elem_of_singleton in Hy as ->. exists d. split; [done | lra].
      + destruct (Hs y Hy) as [x [Hx Hle]]. exists x. split; [done |].
        apply (Hle d u). rewrite Hperm. left.
    - intros a v w Ha Hau Harc. apply elem_of_union in Ha as [Ha | Ha].
      + apply elem_of_singleton in Ha. done.
      + by apply Hrel.
    - done. }
  apply (relax_preserves d u (graph_get graph u)) in Hstart; [| done].
  destruct Hstart as [Hsi Hu' Hdu Hbelow Hold Hdone]. split; [done |].
  intros a v w Ha Harc. destruct (decide (a = u)) as [-> | Hau].
  - apply Hdone. by right.
  - by apply Hold.
Qed.

Lemma search_loop_post fuel st :
  origin_id ≠ destination_id ->
  search_loop fuel graph destination_id (initial_search origin_id) = Some st ->
  loop_post graph origin_id destination_id st.
Proof.
  intros Hne. apply (search_loop_rule (loop_inv graph origin_id destination_id) (loop_post graph origin_id destination_id)).
  - apply loop_inv_empty.
  - apply loop_inv_stale.
  - apply loop_inv_break.
  - apply loop_inv_relax.
  - by apply loop_inv_initial.
Qed.
End Dijkstra.

(** ** Paths as sequences of edges *)


Lemma edge_set_complete db r :
  foreign_keys_ok db -> r ∈ routes db -> r ∈ edge_set db.
Proof.
  intros Hfk Hr. destruct (Hfk r Hr) as [[a Ha] [b Hb]].
  unfold edge_set. apply list_elem_of_fmap. exists (r, a, b). split; [done |].
  unfold Route_select_related. apply list_elem_of_omap. exists r. split; [done |].
  by rewrite Ha, Hb.
Qed.

Lemma arcs_edge_set db :
  arcs db = (fun r => (start_stop_id r, (end_stop_id r, distance r))) <$> edge_set db.
Proof.
  unfold arcs, edge_set. rewrite <- list_fmap_compose.
  apply list_fmap_ext. by intros _ [[r a] b] _.
Qed.

Lemma elem_of_graph_edge_set db u v w :
  (v, w) ∈ graph_get (build_graph db) u
  <-> exists r, r ∈ edge_set db /\ start_stop_id r = u /\ end_stop_id r = v
               /\ distance r = w.
Proof.
  rewrite elem_of_graph_get, arcs_edge_set, list_elem_of_fmap. split.
  - intros [r [Heq Hr]]. inversion Heq; subst. by exists r.
  - intros [r [Hr [<- [<- <-]]]]. by exists r.
Qed.

Lemma consecutive_snoc rs : forall o r,
  consecutive o (rs ++ [r])
  <-> consecutive o rs /\ last (path_nodes o rs) = Some (start_stop_id r).
Proof.
  unfold path_nodes. induction rs as [| r0 rs IH]; intros o r; simpl.
  - split; [intros [-> _] | intros [_ [= ->]]]; done.
  - rewrite IH. tauto.
Qed.

Lemma path_nodes_snoc o rs r :
  path_nodes o (rs ++ [r]) = path_nodes o rs ++ [end_stop_id r].
Proof. unfold path_nodes. by rewrite fmap_app. Qed.

Lemma route_length_snoc rs r :
  route_length (rs ++ [r]) = (route_length rs + distance r)%Q.
Proof. unfold route_length. by rewrite foldl_app. Qed.

(** Paths of the graph are the sequences of consecutive edges. *)
Lemma path_to_routes db o v p c :
  path_to (build_graph db) o v p c ->
  exists rs, is_path (edge_set db) o v rs /\ p = path_nodes o rs
             /\ c = route_length rs.
Proof.
  induction 1 as [| u p c v w _ IH Harc].
  - exists []. repeat split; constructor.
  - destruct IH as [rs [[Hin [Hcons Hlast]] [-> ->]]].
    apply elem_of_graph_edge_set in Harc as [r [Hr [<- [<- <-]]]].
    exists (rs ++ [r]). split; [split; [| split] | split].
    + apply Forall_app. split; [done | by constructor].
    + by apply consecutive_snoc.
    + rewrite path_nodes_snoc. apply last_snoc.
    + by rewrite path_nodes_snoc.
    + by rewrite route_length_snoc.
Qed.

Lemma routes_path_to db o d rs :
  is_path (edge_set db) o d rs ->
  path_to (build_graph db) o d (path_nodes o rs) (route_length rs).
Proof.
  revert d. induction rs as [| r rs IH] using rev_ind; intros d [Hin [Hcons Hlast]].
  - simpl in Hlast. inversion Hlast; subst. constructor.
  - apply Forall_app in Hin as [Hin Hr]. apply Forall_inv in Hr.
    apply consecutive_snoc in Hcons as [Hcons Hstart].
    rewrite path_nodes_snoc, last_snoc in Hlast. inversion Hlast; subst d.
    rewrite path_nodes_snoc, route_length_snoc.
    apply (path_arc _ _ (start_stop_id r)); [apply IH; split; [done | by split] |].
    apply elem_of_graph_edge_set. exists r. split; [exact Hr | done].
Qed.

(** ** Walking the predecessors back *)

Lemma walk_back_chain graph P o v l x :
  chain graph P o v l x ->
  forall fuel, (length l <= fuel)%nat -> walk_back fuel P v = Some l.
Proof.
  induction 1 as [Ho | v u l c w Hv _ IH _]; intros fuel Hfuel;
    (destruct fuel as [| fuel]; [simpl in Hfuel; lia |]); simpl.
  - by rewrite Ho.
  - rewrite Hv, IH; [done |]. simpl in Hfuel. lia.
Qed.

Lemma chain_det graph P o v l x :
  chain graph P o v l x -> forall l' x', chain graph P o v l' x' -> l = l'.
Proof.
  induction 1 as [Ho | v u l c w Hv _ IH _]; intros l' x' Hc'.
  - inversion Hc'; subst; [done | congruence].
  - inversion Hc' as [Ho' | v' u' l0 c' w' Hv' Hc0 _]; subst; [congruence |].
    rewrite Hv in Hv'. inversion Hv'; subst. f_equal. eapply IH; eauto.
Qed.

Lemma chain_elem graph P o v l x :
  chain graph P o v l x ->
  forall y, y ∈ l ->
    exists l' x', chain graph P o y l' x' /\ (length l' <= length l)%nat.
Proof.
  induction 1 as [Ho | v u l c w Hv Hc IH Harc]; intros y Hy.
  - apply list_elem_of_singleton in Hy as ->. exists [o], 0%Q.
    split; [by constructor | done].
  - apply elem_of_cons in Hy as [-> | Hy].
    + exists (v :: l), (c + w)%Q. split; [by econstructor | done].
    + destruct (IH y Hy) as [l' [x' [Hl' Hlen]]]. exists l', x'.
      split; [done | simpl; lia].
Qed.

Lemma chain_NoDup graph P o v l x : chain graph P o v l x -> NoDup l.
Proof.
  induction 1 as [Ho | v u l c w Hv Hc IH Harc].
  - apply NoDup_singleton.
  - constructor; [| done]. intros Hin.
    destruct (chain_elem _ _ _ _ _ _ Hc v Hin) as [l' [x' [Hl' Hlen]]].
    assert (Hc' : chain graph P o v (v :: l) (c + w)) by (by econstructor).
    rewrite (chain_det _ _ _ _ _ _ Hl' _ _ Hc') in Hlen. simpl in Hlen. lia.
Qed.

Lemma chain_dom graph P o v l x :
  chain graph P o v l x -> forall y, y ∈ l -> y ∈ dom P.
Proof.
  induction 1 as [Ho | v u l c w Hv Hc IH Harc]; intros y Hy.
  - apply list_elem_of_singleton in Hy as ->. by apply elem_of_dom.
  - apply elem_of_cons in Hy as [-> | Hy]; [by apply elem_of_dom | by apply IH].
Qed.

Lemma chain_length graph P o v l x :
  chain graph P o v l x -> (length l <= size P)%nat.
Proof.
  intros Hc. rewrite <- size_dom. unfold size, set_size. simpl.
  apply submseteq_length, NoDup_submseteq; [by eapply chain_NoDup |].
  intros y Hy. apply elem_of_elements. by eapply chain_dom.
Qed.

(** ** Reachability, and the engine's results *)

Lemma relax_reach graph o d u adj : forall st,
  (exists p c, path_to graph o u p c) ->
  (forall e, e ∈ adj -> e ∈ graph_get graph u) ->
  reach_inv graph o st -> reach_inv graph o (relax d u adj st).
Proof.
  unfold relax. induction adj as [| [v w] adj IH]; intros st Hu Hadj Hinv; [done |].
  simpl. apply IH; [done | intros e He; apply Hadj; by right |].
  unfold relax_edge.
  destruct (match dist st !! v with None => true | Some dv => Qltb (d + w) dv end);
    [| done].
  destruct Hinv as [Hreach Hheap]. destruct Hu as [p [c Hp]]. split; simpl.
  - intros y Hy. destruct (decide (y = v)) as [-> | Hne].
    + exists (p ++ [v]), (c + w)%Q. econstructor; [done |]. apply Hadj. left.
    + rewrite lookup_insert_ne in Hy by done. by apply Hreach.
  - intros d' y Hin. unfold heappush in Hin.
    destruct (decide (y = v)) as [-> | Hne]; [by rewrite lookup_insert_eq |].
    rewrite lookup_insert_ne by done.
    apply elem_of_cons in Hin as [Heq | Hin]; [congruence | by eapply Hheap].
Qed.

Lemma search_loop_reach graph o dest fuel st :
  search_loop fuel graph dest (initial_search o) = Some st ->
  reach_post graph o dest st.
Proof.
  apply (search_loop_rule (reach_inv graph o) (reach_post graph o dest)).
  - intros st0 [Hreach _] _ Hd. by apply Hreach.
  - intros st0 d u heap' [Hreach Hheap] Hpop _. apply heappop_spec in Hpop as [Hperm _].
    split; simpl; [done |]. intros d' v Hin. apply (Hheap d'). rewrite Hperm. by right.
  - intros st0 d heap' [Hreach _] _ _ Hd. by apply Hreach.
  - intros st0 d u heap' [Hreach Hheap] Hpop _ _.
    apply heappop_spec in Hpop as [Hperm _]. apply relax_reach.
    + apply Hreach, (Hheap d). rewrite Hperm. left.
    + done.
    + split; simpl; [done |]. intros d' v Hin. apply (Hheap d'). rewrite Hperm. by right.
  - split; simpl.
    + intros v [x Hv]. apply lookup_singleton_Some in Hv as [<- _].
      exists [o], 0%Q. constructor.
    + intros d v Hin. apply list_elem_of_singleton in Hin. inversion Hin; subst.
      by rewrite lookup_singleton_eq.
Qed.


Lemma dijkstra_not_found db origin_id destination_id :
  origin_id ≠ destination_id ->
  (forall rs, ~ is_path (edge_set db) origin_id destination_id rs) ->
  dijkstra_shortest_path db origin_id destination_id = Return None.
Proof.
  intros Hne Hnone. unfold dijkstra_shortest_path.
  rewrite decide_False by done.
  destruct (search_loop_initial db origin_id destination_id) as [st Hst].
  fold (initial_search origin_id). rewrite Hst.
  destruct (dist st !! destination_id) as [total |] eqn:Hd; [| done].
  destruct (search_loop_reach _ _ _ _ _ Hst) as [p [c Hp]]; [by rewrite Hd |].
  apply path_to_routes in Hp as [rs [Hrs _]]. by destruct (Hnone rs).
Qed.

(** With no negative weight the function comes back. *)
Lemma dijkstra_comes_back db origin_id destination_id :
  (forall e, e ∈ edge_set db -> (0 <= distance e)%Q) ->
  dijkstra_shortest_path db origin_id destination_id ≠ Diverges.
Proof.
  intros Hnonneg. unfold dijkstra_shortest_path.
  destruct (decide (origin_id = destination_id)) as [<- | Hne].
  - by destruct (bus_stops db !! origin_id).
  - destruct (search_loop_initial db origin_id destination_id) as [st Hst].
    fold (initial_search origin_id). rewrite Hst.
    destruct (dist st !! destination_id) as [total |] eqn:Hd; [| done].
    assert (Hgraph : forall u v w,
               (v, w) ∈ graph_get (build_graph db) u -> (0 <= w)%Q).
    { intros u v w Harc. apply elem_of_graph_edge_set in Harc as [e [He [_ [_ <-]]]].
      by apply Hnonneg. }
    destruct (search_loop_post _ _ _ Hgraph _ _ Hne Hst _ Hd) as [[l Hl] Hopt].
    rewrite (walk_back_chain _ _ _ _ _ _ Hl)
      by (pose proof (chain_length _ _ _ _ _ _ Hl); lia).
    by destruct (mapM _ _).
Qed.

(** ** Durations *)









(** ** Effects that only reach the network and the clock *)

Lemma quiet_ret {A} (a : A) : quiet (mret a).
Proof. intros w r w' [= <- <-]. done. Qed.

Lemma quiet_bind {A B} (m : M A) (f : A -> M B) :
  quiet m -> (forall a, quiet (f a)) -> quiet (m ≫= f).
Proof.
  intros Hm Hf w r w'. unfold mbind, M_bind.
  destruct (m w) as [[a | e |] w1] eqn:Hmw; destruct (Hm _ _ _ Hmw) as [? [? ?]].
  - intros Hfa. destruct (Hf a _ _ _ Hfa) as [? [? ?]]. split; [| split]; congruence.
  - intros [= <- <-]. done.
  - intros [= <- <-]. done.
Qed.

Lemma quiet_fmap {A B} (g : A -> B) (m : M A) : quiet m -> quiet (g <$> m).
Proof.
  intros Hm w r w'. unfold fmap, M_fmap.
  destruct (m w) as [[a | e |] w1] eqn:Hmw; destruct (Hm _ _ _ Hmw) as [? [? ?]];
    intros [= <- <-]; done.
Qed.

Lemma quiet_try_except {A} (m : M A) catches (handler : M A) :
  quiet m -> quiet handler -> quiet (try_except m catches handler).
Proof.
  intros Hm Hh w r w'. unfold try_except.
  destruct (m w) as [[a | e |] w1] eqn:Hmw; destruct (Hm _ _ _ Hmw) as [? [? ?]].
  - intros [= <- <-]. done.
  - destruct (catches e).
    + intros Hhw. destruct (Hh _ _ _ Hhw) as [? [? ?]]. split; [| split]; congruence.
    + intros [= <- <-]. done.
  - intros [= <- <-]. done.
Qed.

Lemma quiet_sleep seconds : quiet (sleep seconds).
Proof. intros w r w' [= <- <-]. done. Qed.

Lemma quiet_urlopen_read_json env req : quiet (urlopen_read_json env req).
Proof.
  intros w r w'. unfold urlopen_read_json.
  destruct (urlopen env (length (sent w)) req) as [s | | | | [doc |]];
    intros [= <- <-]; done.
Qed.

Lemma quiet_retry_loop fetch sleep_s remaining :
  quiet fetch -> quiet (retry_loop fetch sleep_s remaining).
Proof.
  intros Hfetch. induction remaining as [| k IH]; simpl; [apply quiet_ret |].
  apply quiet_bind; [done |]. intros [p |]; [apply quiet_ret |].
  apply quiet_bind; [| done].
  destruct ((0 <? k)%nat && Qltb 0 sleep_s); [apply quiet_sleep | apply quiet_ret].
Qed.

Lemma quiet__ors_distance_duration env lon1 lat1 lon2 lat2 key timeout :
  quiet (_ors_distance_duration env lon1 lat1 lon2 lat2 key timeout).
Proof.
  unfold _ors_distance_duration. apply quiet_bind.
  - apply quiet_try_except; [| apply quiet_ret].
    apply quiet_fmap, quiet_urlopen_read_json.
  - intros [res |]; apply quiet_ret.
Qed.

Lemma quiet_ors_pair env lon1 lat1 lon2 lat2 key timeout :
  quiet (ors_pair env lon1 lat1 lon2 lat2 key timeout).
Proof.
  unfold ors_pair. apply quiet_bind.
  - apply quiet_try_except; [| apply quiet_ret].
    apply quiet_fmap, quiet_urlopen_read_json.
  - intros [res |]; apply quiet_ret.
Qed.

Lemma quiet_refresh_fetch env opts row : quiet (refresh_fetch env opts row).
Proof.
  destruct row as [[r0 a] b]. unfold refresh_fetch.
  apply quiet_retry_loop, quiet__ors_distance_duration.
Qed.

(** ** The edge refresher *)

Lemma count_cons_some p l : count_some (Some p :: l) = 1 + count_some l.
Proof.
  unfold count_some. rewrite filter_cons_True by done. simpl length. lia.
Qed.

Lemma count_cons_none l : count_none (None :: l) = 1 + count_none l.
Proof.
  unfold count_none. rewrite filter_cons_True by done. simpl length. lia.
Qed.

Lemma count_some_cons_none l : count_some (None :: l) = count_some l.
Proof.
  unfold count_some. rewrite filter_cons_False; [done |]. by intros [x Hx].
Qed.

Lemma count_none_cons_some p l : count_none (Some p :: l) = count_none l.
Proof. unfold count_none. by rewrite filter_cons_False. Qed.

Lemma count_some_nonneg l : 0 <= count_some l.
Proof. unfold count_some. lia. Qed.

(** The loop counts what the provider answered, and writes the store only
    for an answer outside a dry run. *)
Lemma refresh_loop_spec env opts rows : forall updated skipped w,
  length (refresh_fetches env opts rows w) = length rows ->
  exists w',
    refresh_loop env opts rows updated skipped w
    = (Return (updated + count_some (refresh_fetches env opts rows w),
               skipped + count_none (refresh_fetches env opts rows w)), w')
    /\ ors_stats_json w' = ors_stats_json w
    /\ ors_matrix_json w' = ors_matrix_json w
    /\ (refresh_dry opts = true \/ count_some (refresh_fetches env opts rows w) = 0 ->
        store w' = store w).
Proof.
  induction rows as [| row rows IH]; intros updated skipped w Hlen.
  - exists w. simpl. unfold count_some, count_none. simpl.
    rewrite !Z.add_0_r. done.
  - simpl in *. unfold mbind at 1, M_bind at 1.
    destruct (refresh_fetch env opts row w) as [[answer | e |] w1] eqn:Hf;
      [| simpl in Hlen; lia | simpl in Hlen; lia].
    destruct (quiet_refresh_fetch _ _ _ _ _ _ Hf) as [Hs1 [Ht1 Hm1]].
    simpl in Hlen. apply Nat.succ_inj in Hlen.
    destruct answer as [[d_km dur_min] |].
    + rewrite count_cons_some, count_none_cons_some.
      destruct (refresh_dry opts) eqn:Hdry;
        unfold mbind, M_bind, mret, M_ret; simpl;
        destruct (Qltb 0 (refresh_sleep opts)); simpl in *;
        destruct (IH (updated + 1) skipped _ Hlen) as [w' [Hrun [Ht [Hm Hs]]]];
        exists w'; rewrite Hrun; simpl in *.
      all: split; [do 3 f_equal; lia |].
      all: split; [congruence |].
      all: split; [congruence |].
      1, 2: intros _; rewrite Hs; auto.
      all: intros [Hd | Hc]; [done |].
      all: match type of Hc with
           | 1 + count_some ?l = 0 => pose proof (count_some_nonneg l)
           end; lia.
    + rewrite count_cons_none, count_some_cons_none.
      unfold mbind, M_bind, mret, M_ret. simpl.
      destruct (Qltb 0 (refresh_sleep opts)); simpl in *;
        destruct (IH updated (skipped + 1) _ Hlen) as [w' [Hrun [Ht [Hm Hs]]]];
        exists w'; rewrite Hrun; simpl in *.
      all: split; [do 3 f_equal; lia |].
      all: split; [congruence |].
      all: split; [congruence |].
      all: intros Hc; rewrite Hs; auto.
Qed.

Lemma refresh_handle_spec env opts w :
  OPENROUTESERVICE_API_KEY env ≠ "" ->
  data_dir_writable env = true ->
  let rows := refresh_queryset opts (store w) in
  let fetched := refresh_fetches env opts rows w in
  length fetched = length rows ->
  exists w',
    refresh_handle env opts w = (Return tt, w')
    /\ ors_stats_json w'
       = Some {| stats_updated := count_some fetched;
                 stats_skipped := count_none fetched;
                 stats_timestamp := utc_now env |}
    /\ (refresh_dry opts = true \/ count_some fetched = 0 -> store w' = store w).
Proof.
  intros Hkey Hfs rows fetched Hlen. unfold refresh_handle.
  apply String.eqb_neq in Hkey. rewrite Hkey.
  unfold mbind at 1, M_bind at 1, with_store. fold rows.
  destruct (refresh_loop_spec env opts rows 0 0 w Hlen) as [w1 [Hrun [Ht [Hm Hs]]]].
  unfold mbind, M_bind. rewrite Hrun. unfold write_stats. rewrite Hfs.
  eexists. split; [reflexivity |]. simpl. split; [done | exact Hs].
Qed.

Lemma count_some_replicate n : count_some (replicate n None) = 0.
Proof.
  induction n as [| n IH]; [done |]. simpl. by rewrite count_some_cons_none.
Qed.

Lemma count_none_replicate n : count_none (replicate n None) = Z.of_nat n.
Proof.
  induction n as [| n IH]; [done |]. simpl replicate. rewrite count_cons_none, IH. lia.
Qed.


(** ** The matrix builder *)


Lemma limit_reached_below opts count :
  matrix_limit opts = 0 \/ count < matrix_limit opts ->
  limit_reached opts count = false.
Proof.
  unfold limit_reached. intros [-> | Hlt]; [done |].
  apply andb_false_iff. right. by apply Z.leb_gt.
Qed.

Lemma matrix_inner_same env opts i a b js results count w :
  matrix_inner env opts i a ((i, b) :: js) results count w
  = matrix_inner env opts i a js results count w.
Proof. simpl. by rewrite Nat.eqb_refl. Qed.



Lemma others_cons_same i b js : others i ((i, b) :: js) = others i js.
Proof.
  unfold others. rewrite filter_cons_False; [done |]. intros H. by apply H.
Qed.

Lemma others_cons_other i j b js : j ≠ i -> others i ((j, b) :: js) = b :: others i js.
Proof. intros Hji. unfold others. by rewrite filter_cons_True. Qed.







Lemma length_order_by_id db : length (BusStop_order_by_id db) = size (bus_stops db).
Proof.
  unfold BusStop_order_by_id. rewrite merge_sort_Permutation.
  apply length_map_to_list.
Qed.


(** ** The provider client of the endpoint *)

(** What the client does with each answer of the network. *)
Lemma ors_directions_for_stops_answer env stops0 profile w :
  OPENROUTESERVICE_API_KEY env ≠ "" -> (2 <= length stops0)%nat ->
  (ors_directions_for_stops env stops0 profile w).1
  = match urlopen env (length (sent w)) (directions_request env stops0 profile) with
    | RespHTTPError _ | RespURLError => Return None
    | RespTimeout => Raise SocketTimeout
    | RespSSLError => Raise SSLError
    | RespBody None => Raise ValueError
    | RespBody (Some doc) => Return (default None (parse_summary env doc))
    end.
Proof.
  intros Hkey Hlen. unfold ors_directions_for_stops.
  apply String.eqb_neq in Hkey. rewrite Hkey.
  destruct stops0 as [| s0 [| s1 stops0]]; simpl in Hlen; try lia.
  cbn [orb length Nat.ltb Nat.leb].
  unfold mbind, M_bind, try_except, fmap, M_fmap, _ors_request, urlopen_read_json.
  fold (directions_request env (s0 :: s1 :: stops0) profile).
  by destruct (urlopen env (length (sent w)) _) as [s | | | | [doc |]].
Qed.

(** The client of the edge refresher turns the same answers into [None],
    but for the body that is not JSON. *)
Lemma _ors_distance_duration_answer env lon1 lat1 lon2 lat2 key timeout w :
  (_ors_distance_duration env lon1 lat1 lon2 lat2 key timeout w).1
  = match urlopen env (length (sent w))
            {| req_url := ors_url "driving-car";
               req_coordinates := [(lon1, lat1); (lon2, lat2)];
               req_authorization := key; req_timeout := timeout |} with
    | RespBody None => Raise ValueError
    | RespBody (Some doc) => Return (default None (parse_pair env doc))
    | _ => Return None
    end.
Proof.
  unfold _ors_distance_duration, mbind, M_bind, try_except, fmap, M_fmap,
    urlopen_read_json.
  by destruct (urlopen env (length (sent w)) _) as [s | | | | [doc |]].
Qed.

(** The endpoint hands on what the client of the provider does. *)
Lemma shortest_route_found env w origin destination r :
  dijkstra_shortest_path (store w) origin destination = Return (Some r) ->
  (shortest_route env (ParamInt origin) (ParamInt destination) w).1
  = match (ors_directions_for_stops env (stops r) "driving-car" w).1 with
    | Return ors => Return {| status := HTTP_200_OK; data := RouteData r ors |}
    | Raise e => Raise e
    | Diverges => Diverges
    end.
Proof.
  intros Hd. unfold shortest_route, mbind, M_bind, with_store. rewrite Hd.
  by destruct (ors_directions_for_stops env (stops r) "driving-car" w) as [[ors | e |] w'].
Qed.

(** ** The batch jobs without a credential *)

Lemma refresh_handle_no_key env opts w :
  OPENROUTESERVICE_API_KEY env = "" -> refresh_handle env opts w = (Return tt, w).
Proof. intros Hkey. unfold refresh_handle. by rewrite Hkey. Qed.

(** A dry run never writes the store, however the pass ends. *)
Lemma quiet_refresh_loop_dry env opts rows :
  refresh_dry opts = true ->
  forall updated skipped, quiet (refresh_loop env opts rows updated skipped).
Proof.
  intros Hdry. induction rows as [| row rows IH]; intros updated skipped; simpl.
  - apply quiet_ret.
  - apply quiet_bind; [apply quiet_refresh_fetch |]. intros answer.
    apply quiet_bind.
    + destruct answer as [[d_km dur_min] |]; [| apply quiet_ret].
      rewrite Hdry. apply quiet_bind; [apply quiet_ret |]. intros _. apply quiet_ret.
    + intros counters. apply quiet_bind; [| intros _; apply IH].
      destruct (Qltb 0 (refresh_sleep opts)); [apply quiet_sleep | apply quiet_ret].
Qed.

Lemma refresh_handle_dry_store env opts w r w' :
  refresh_dry opts = true ->
  refresh_handle env opts w = (r, w') -> store w' = store w.
Proof.
  intros Hdry. unfold refresh_handle.
  destruct (String.eqb _ _); [by intros [= <- <-] |].
  unfold mbind at 1, M_bind at 1, with_store. unfold mbind, M_bind.
  destruct (refresh_loop env opts _ 0 0 w) as [[counters | e |] w1] eqn:Hloop;
    destruct (quiet_refresh_loop_dry env opts _ Hdry _ _ _ _ _ Hloop) as [Hs _].
  - unfold write_stats. destruct (data_dir_writable env); intros [= <- <-]; done.
  - by intros [= <- <-].
  - by intros [= <- <-].
Qed.

(** * The claims of the specification *)

(** ** The shortest path *)



(** ** The total duration *)







(** ** Unreachable destinations *)

(** C3.  When the origin and the destination differ and the graph has no
    directed path from the one to the other, [dijkstra_shortest_path]
    returns [None], and the endpoint answers 404 (not found), leaving the
    world as it was. *)
Theorem unreachable_not_found (env : environment) (w : world) (origin destination : Z) :
  origin ≠ destination ->
  (forall rs, ~ is_path (edge_set (store w)) origin destination rs) ->
  dijkstra_shortest_path (store w) origin destination = Return None
  /\ exists resp,
       shortest_route env (ParamInt origin) (ParamInt destination) w = (Return resp, w)
       /\ status resp = HTTP_404_NOT_FOUND.
Proof.
  intros Hne Hnone.
  pose proof (dijkstra_not_found _ _ _ Hne Hnone) as Hd. split; [done |].
  eexists. unfold shortest_route, mbind, M_bind, with_store. rewrite Hd.
  split; reflexivity.
Qed.

Lemma no_path_from_4 rs : ~ is_path (edge_set test_basic) 4 1 rs.
Proof.
  intros [Hin [Hcons Hlast]]. destruct rs as [| r rs]; [by inversion Hlast |].
  destruct Hcons as [Hstart _]. apply Forall_inv in Hin.
  vm_compute in Hin.
  repeat (apply elem_of_cons in Hin as [-> | Hin]; [by vm_compute in Hstart |]).
  by apply elem_of_nil in Hin.
Qed.

Lemma unreachable_not_found_witness :
  dijkstra_shortest_path test_basic 4 1 = Return None
  /\ exists resp,
       shortest_route garbled_env (ParamInt 4) (ParamInt 1) (fresh_world test_basic)
       = (Return resp, fresh_world test_basic)
       /\ status resp = HTTP_404_NOT_FOUND.
Proof.
  apply (unreachable_not_found garbled_env (fresh_world test_basic) 4 1);
    [done | apply no_path_from_4].
Defined.

(** ** The matrix builder without a credential *)




(** ** Failures of the provider in the endpoint *)

(** C5.  The code at the input that breaks the claim: the store of
    [test_shortest_path_basic], a credential, and a provider that answers
    with a body that is not JSON.  The client raises [ValueError] instead
    of returning [None]; the search has a result, but the endpoint ends
    in a server error. *)
Lemma unparsable_body_aborts_query :
  (ors_directions_for_stops garbled_env
     [stop_info 1 (stop_at "A" 12 75); stop_info 2 (stop_at "B" 13 76)]
     "driving-car" (fresh_world test_basic)).1 = Raise ValueError
  /\ (exists r, dijkstra_shortest_path test_basic 1 3 = Return (Some r))
  /\ (shortest_route garbled_env (ParamInt 1) (ParamInt 3) (fresh_world test_basic)).1
     = Raise ValueError
  /\ served_status
       (shortest_route garbled_env (ParamInt 1) (ParamInt 3) (fresh_world test_basic)).1
     = Some 500.
Proof.
  split; [by vm_compute |]. split; [eexists; by vm_compute |].
  split; by vm_compute.
Qed.

(** ** No credential, no request *)

(** C6.  With no credential [ors_directions_for_stops] returns [None] and
    leaves the world as it was: no request is added to those sent,
    whatever the network would answer. *)
Theorem no_credential_no_request (env : environment) (stops0 : list StopInfo)
    (profile : string) (w : world) :
  OPENROUTESERVICE_API_KEY env = "" ->
  ors_directions_for_stops env stops0 profile w = (Return None, w).
Proof. intros Hkey. unfold ors_directions_for_stops. by rewrite Hkey. Qed.

Lemma no_credential_no_request_witness :
  ors_directions_for_stops no_key_env
    [stop_info 1 (stop_at "A" 12 75); stop_info 2 (stop_at "B" 13 76)]
    "driving-car" (fresh_world test_basic)
  = (Return None, fresh_world test_basic).
Proof. apply (no_credential_no_request no_key_env). reflexivity. Defined.

(** ** The edge refresher *)

(** C7.  In a run with a credential, outside dry-run mode, in which the
    provider's answer is [None] for every edge of the pass after its
    retries, the store is left as it was, and the run-stats artifact
    written after the pass records [updated = 0] and [skipped] = the
    number of edges of the pass. *)
Theorem refresh_provider_down env opts w :
  OPENROUTESERVICE_API_KEY env ≠ "" ->
  data_dir_writable env = true ->
  refresh_dry opts = false ->
  refresh_fetches env opts (refresh_queryset opts (store w)) w
  = replicate (length (refresh_queryset opts (store w))) None ->
  exists w',
    refresh_handle env opts w = (Return tt, w')
    /\ store w' = store w
    /\ ors_stats_json w'
       = Some {| stats_updated := 0;
                 stats_skipped := Z.of_nat (length (refresh_queryset opts (store w)));
                 stats_timestamp := utc_now env |}.
Proof.
  intros Hkey Hfs _ Hdown.
  destruct (refresh_handle_spec env opts w Hkey Hfs) as [w' [Hrun [Hstats Hstore]]].
  { by rewrite Hdown, length_replicate. }
  rewrite Hdown, count_some_replicate, count_none_replicate in *.
  exists w'. split; [done |]. split; [apply Hstore; by right | done].
Qed.

Lemma refresh_provider_down_witness :
  exists w',
    refresh_handle down_env (default_refresh false) (world_after_run test_basic)
    = (Return tt, w')
    /\ store w' = test_basic
    /\ ors_stats_json w'
       = Some {| stats_updated := 0; stats_skipped := 3;
                 stats_timestamp := "2024-01-01T00:00:00+00:00" |}.
Proof.
  apply (refresh_provider_down down_env (default_refresh false)
           (world_after_run test_basic)).
  - discriminate.
  - reflexivity.
  - reflexivity.
  - vm_compute. reflexivity.
Defined.

(** ** Equal origin and destination *)

(** C8.  For every stop [x], [dijkstra_shortest_path(x, x)] returns the
    one-node path [[x]] with [total_distance] 0, whatever the edges of the
    store are: they do not appear in the result. *)
Theorem dijkstra_same_stop (stop_table : gmap Z BusStop) (edges : list Route)
    (x : Z) (stop : BusStop) :
  stop_table !! x = Some stop ->
  dijkstra_shortest_path {| bus_stops := stop_table; routes := edges |} x x
  = Return (Some {| path := [x]; total_distance := 0;
                    stops := [stop_info x stop]; total_duration_min := None |}).
Proof.
  intros Hx. unfold dijkstra_shortest_path. rewrite decide_True by done.
  simpl. by rewrite Hx.
Qed.

Lemma dijkstra_same_stop_witness :
  dijkstra_shortest_path test_basic 4 4
  = Return (Some {| path := [4]; total_distance := 0;
                    stops := [stop_info 4 (stop_at "D" (12003 # 1000) (75003 # 1000))];
                    total_duration_min := None |}).
Proof. apply (dijkstra_same_stop test_stops _ 4). reflexivity. Defined.

(** C9.  For an id [x] that is not the id of a stop,
    [dijkstra_shortest_path(x, x)] raises [DoesNotExist]; the endpoint
    does not catch it, so the request ends in a server error (500), not
    in the 404 of a path that is not found. *)
Theorem dijkstra_same_unknown_id (env : environment) (w : world) (x : Z) :
  bus_stops (store w) !! x = None ->
  dijkstra_shortest_path (store w) x x = Raise DoesNotExist
  /\ shortest_route env (ParamInt x) (ParamInt x) w = (Raise DoesNotExist, w)
  /\ served_status (shortest_route env (ParamInt x) (ParamInt x) w).1 = Some 500.
Proof.
  intros Hx.
  assert (Hd : dijkstra_shortest_path (store w) x x = Raise DoesNotExist).
  { unfold dijkstra_shortest_path. rewrite decide_True by done. by rewrite Hx. }
  assert (Hv : shortest_route env (ParamInt x) (ParamInt x) w = (Raise DoesNotExist, w)).
  { unfold shortest_route, mbind, M_bind, with_store. by rewrite Hd. }
  by rewrite Hv.
Qed.

Lemma dijkstra_same_unknown_id_witness :
  dijkstra_shortest_path test_basic 9 9 = Raise DoesNotExist
  /\ shortest_route no_key_env (ParamInt 9) (ParamInt 9) (fresh_world test_basic)
     = (Raise DoesNotExist, fresh_world test_basic)
  /\ served_status
       (shortest_route no_key_env (ParamInt 9) (ParamInt 9) (fresh_world test_basic)).1
     = Some 500.
Proof. apply (dijkstra_same_unknown_id no_key_env (fresh_world test_basic) 9). reflexivity. Defined.

(** ** The dry run of the edge refresher *)

(** C10.  In a dry run with a credential whose pass completes, the store
    is left as it was, yet [updated] counts every edge for which the
    provider gave an answer, and the run-stats artifact is overwritten
    with these counts. *)
Theorem refresh_dry_run env opts w :
  OPENROUTESERVICE_API_KEY env ≠ "" ->
  data_dir_writable env = true ->
  refresh_dry opts = true ->
  length (refresh_fetches env opts (refresh_queryset opts (store w)) w)
  = length (refresh_queryset opts (store w)) ->
  exists w',
    refresh_handle env opts w = (Return tt, w')
    /\ store w' = store w
    /\ ors_stats_json w'
       = Some {| stats_updated :=
                   count_some (refresh_fetches env opts
                                 (refresh_queryset opts (store w)) w);
                 stats_skipped :=
                   count_none (refresh_fetches env opts
                                 (refresh_queryset opts (store w)) w);
                 stats_timestamp := utc_now env |}.
Proof.
  intros Hkey Hfs Hdry Hlen.
  destruct (refresh_handle_spec env opts w Hkey Hfs Hlen) as [w' [Hrun [Hstats Hstore]]].
  exists w'. split; [done |]. split; [apply Hstore; by left | done].
Qed.

Lemma refresh_dry_run_witness :
  exists w',
    refresh_handle up_env (default_refresh true) (world_after_run test_basic)
    = (Return tt, w')
    /\ store w' = test_basic
    /\ ors_stats_json w'
       = Some {| stats_updated := 3; stats_skipped := 0;
                 stats_timestamp := "2024-01-01T00:00:00+00:00" |}.
Proof.
  apply (refresh_dry_run up_env (default_refresh true) (world_after_run test_basic)).
  - discriminate.
  - reflexivity.
  - reflexivity.
  - vm_compute. reflexivity.
Defined.


(** * Further properties of the code *)

(** ** More on the engine *)

Lemma search_loop_complete graph origin_id destination_id fuel st :
  (forall u v w, (v, w) ∈ graph_get graph u -> (0 <= w)%Q) ->
  origin_id ≠ destination_id ->
  search_loop fuel graph destination_id (initial_search origin_id) = Some st ->
  forall p c, path_to graph origin_id destination_id p c ->
    is_Some (dist st !! destination_id).
Proof.
  intros Hnonneg Hne Hrun p c Hp. revert Hrun.
  apply (search_loop_rule (loop_inv graph origin_id destination_id)
           (fun st => is_Some (dist st !! destination_id))).
  - intros st0 Hinv Hheap.
    destruct (frontier graph origin_id destination_id Hnonneg st0 destination_id p c Hinv Hp)
      as [y [xy [Hy [_ Hcase]]]].
    destruct Hinv as [[_ _ Hq _ _ _] _].
    destruct (decide (y ∈ visited st0)) as [Hvis | Hvis].
    + destruct Hcase as [? | ->]; [done | by rewrite Hy].
    + pose proof (Hq y xy Hy Hvis) as Hin. rewrite Hheap in Hin.
      by apply elem_of_nil in Hin.
  - apply loop_inv_stale.
  - intros st0 d heap' Hinv Hpop Hvis. simpl.
    by rewrite (popped_dist graph origin_id destination_id _ _ _ _ (proj1 Hinv) Hpop Hvis).
  - by apply loop_inv_relax.
  - by apply loop_inv_initial.
Qed.

Lemma path_nodes_stops db o rs y :
  Forall (fun r => r ∈ edge_set db) rs -> consecutive o rs -> rs ≠ [] ->
  y ∈ path_nodes o rs -> is_Some (bus_stops db !! y).
Proof.
  intros Hin Hcons Hne Hy.
  assert (Hjoin : forall r, r ∈ edge_set db ->
            is_Some (bus_stops db !! start_stop_id r)
            /\ is_Some (bus_stops db !! end_stop_id r)).
  { intros r Hr. unfold edge_set, Route_select_related in Hr.
    apply list_elem_of_fmap in Hr as [[[r' a] b] [-> Hr]].
    apply list_elem_of_omap in Hr as [r0 [_ Hj]].
    destruct (bus_stops db !! start_stop_id r0) eqn:Ha,
             (bus_stops db !! end_stop_id r0) eqn:Hb; simplify_eq.
    rewrite Ha, Hb. eauto. }
  unfold path_nodes in Hy. apply elem_of_cons in Hy as [-> | Hy].
  - destruct rs as [| r rs]; [done |]. destruct Hcons as [<- _].
    apply Forall_inv in Hin. by apply Hjoin.
  - apply list_elem_of_fmap in Hy as [r [-> Hr]].
    rewrite Forall_forall in Hin. by apply Hjoin, Hin.
Qed.

Lemma mapM_stop_info_is_Some db (ids : list Z) :
  (forall y, y ∈ ids -> is_Some (bus_stops db !! y)) ->
  is_Some (mapM (fun sid => stop_info sid <$>
                   filter (fun kv : Z * BusStop => kv.1 ∈ ids) (bus_stops db) !! sid) ids).
Proof.
  intros Hall. apply mapM_is_Some. rewrite Forall_forall. intros y Hy.
  destruct (Hall y Hy) as [s Hs].
  exists (stop_info y s). rewrite (map_lookup_filter_Some_2 _ _ y s); done.
Qed.


Lemma nonneg_graph db :
  (forall e, e ∈ edge_set db -> (0 <= distance e)%Q) ->
  forall u v w, (v, w) ∈ graph_get (build_graph db) u -> (0 <= w)%Q.
Proof.
  intros Hnonneg u v w Harc.
  apply elem_of_graph_edge_set in Harc as [e [He [_ [_ <-]]]]. by apply Hnonneg.
Qed.

(** X1.  With no negative distance and distinct ids, a directed path from
    the origin to the destination makes [dijkstra_shortest_path] return a
    result: not [None], no [KeyError], and both loops end. *)
Theorem dijkstra_finds_path db origin_id destination_id rs :
  (forall e, e ∈ edge_set db -> (0 <= distance e)%Q) ->
  origin_id ≠ destination_id ->
  is_path (edge_set db) origin_id destination_id rs ->
  exists r, dijkstra_shortest_path db origin_id destination_id = Return (Some r).
Proof.
  intros Hnonneg Hne Hrs. unfold dijkstra_shortest_path.
  rewrite decide_False by done. fold (initial_search origin_id).
  destruct (search_loop_initial db origin_id destination_id) as [st Hst].
  rewrite Hst. pose proof (nonneg_graph db Hnonneg) as Hgraph.
  destruct (search_loop_complete _ _ _ _ _ Hgraph Hne Hst _ _
              (routes_path_to _ _ _ _ Hrs)) as [total Hd].
  rewrite Hd.
  destruct (search_loop_post _ _ _ Hgraph _ _ Hne Hst _ Hd) as [[l Hl] _].
  rewrite (walk_back_chain _ _ _ _ _ _ Hl)
    by (pose proof (chain_length _ _ _ _ _ _ Hl); lia).
  apply chain_path, path_to_routes in Hl as [rs0 [[Hin [Hcons Hlast]] [Hp _]]].
  rewrite Hp.
  destruct (mapM_stop_info_is_Some db (path_nodes origin_id rs0)) as [infos Hinfos].
  { intros y Hy. apply (path_nodes_stops db origin_id rs0); try done.
    intros ->. simpl in Hlast. congruence. }
  rewrite Hinfos. eauto.
Qed.

Lemma dijkstra_finds_path_witness :
  exists r, dijkstra_shortest_path test_basic 1 3 = Return (Some r).
Proof.
  apply (dijkstra_finds_path test_basic 1 3
           [mk_route 1 1 2 1 None; mk_route 2 2 3 1 None]).
  - intros e He. vm_compute in He.
    repeat (apply elem_of_cons in He as [-> | He]; [by vm_compute |]).
    by apply elem_of_nil in He.
  - done.
  - split; [| split; [by vm_compute | reflexivity]].
    repeat constructor; vm_compute; auto using elem_of_list_here, elem_of_list_further.
Defined.

(** X2.  With no negative distance the returned path goes through no stop
    twice. *)
Theorem dijkstra_path_simple db origin_id destination_id r :
  (forall e, e ∈ edge_set db -> (0 <= distance e)%Q) ->
  dijkstra_shortest_path db origin_id destination_id = Return (Some r) ->
  NoDup (path r).
Proof.
  intros Hnonneg. unfold dijkstra_shortest_path.
  destruct (decide (origin_id = destination_id)) as [<- | Hne].
  - destruct (bus_stops db !! origin_id); [| done]. intros [= <-]. simpl.
    apply NoDup_singleton.
  - fold (initial_search origin_id).
    destruct (search_loop _ _ _ _) as [st |] eqn:Hst; [| done].
    destruct (dist st !! destination_id) as [total |] eqn:Hd; [| done].
    destruct (search_loop_post _ _ _ (nonneg_graph db Hnonneg) _ _ Hne Hst _ Hd)
      as [[l Hl] _].
    rewrite (walk_back_chain _ _ _ _ _ _ Hl)
      by (pose proof (chain_length _ _ _ _ _ _ Hl); lia).
    destruct (mapM _ _); [| done]. intros [= <-]. simpl.
    rewrite reverse_Permutation. by eapply chain_NoDup.
Qed.

Lemma dijkstra_path_simple_witness :
  exists r, dijkstra_shortest_path test_basic 1 3 = Return (Some r) /\ NoDup (path r).
Proof.
  eexists. split; [vm_compute; reflexivity |].
  apply (dijkstra_path_simple test_basic 1 3).
  - intros e He. vm_compute in He.
    repeat (apply elem_of_cons in He as [-> | He]; [by vm_compute |]).
    by apply elem_of_nil in He.
  - vm_compute. reflexivity.
Defined.

(** X3.  The [stops] of a result are the records of the stops of its
    [path], in the order of the path: same length, same ids, and the name
    and coordinates the store has for each id. *)
Theorem dijkstra_stops_follow_path db origin_id destination_id r :
  dijkstra_shortest_path db origin_id destination_id = Return (Some r) ->
  Forall2 (fun sid info =>
             exists s, bus_stops db !! sid = Some s /\ info = stop_info sid s)
          (path r) (stops r).
Proof.
  unfold dijkstra_shortest_path.
  destruct (decide (origin_id = destination_id)) as [<- | Hne].
  - destruct (bus_stops db !! origin_id) as [s |] eqn:Hs; [| done].
    intros [= <-]. simpl. constructor; [by exists s | constructor].
  - destruct (search_loop _ _ _ _) as [st |]; [| done].
    destruct (dist st !! destination_id) as [total |]; [| done].
    destruct (walk_back _ _ _) as [appended |]; [| done].
    destruct (mapM _ _) as [ordered |] eqn:Hm; [| done]. intros [= <-]. simpl.
    apply mapM_Some in Hm. eapply Forall2_impl; [exact Hm |].
    intros sid info Hinfo. simpl in Hinfo.
    destruct (filter _ (bus_stops db) !! sid) as [s |] eqn:Hs; [| done].
    apply map_lookup_filter_Some in Hs as [Hs _].
    exists s. split; [done |]. by inversion Hinfo.
Qed.

Lemma dijkstra_stops_follow_path_witness :
  exists r,
    dijkstra_shortest_path test_basic 1 3 = Return (Some r)
    /\ Forall2 (fun sid info =>
                  exists s, bus_stops test_basic !! sid = Some s
                            /\ info = stop_info sid s)
               (path r) (stops r).
Proof.
  eexists. split; [vm_compute; reflexivity |].
  apply (dijkstra_stops_follow_path test_basic 1 3). vm_compute. reflexivity.
Defined.

Lemma add_edge_nonempty g u v w :
  (forall x l, g !! x = Some l -> l ≠ []) ->
  forall x l, add_edge g u v w !! x = Some l -> l ≠ [].
Proof.
  intros Hg x l. unfold add_edge. destruct (decide (u = x)) as [-> | Hne].
  - rewrite lookup_insert_eq. intros [= <-]. by destruct (default [] (g !! x)).
  - rewrite lookup_insert_ne by done. apply Hg.
Qed.

Lemma build_graph_nonempty db x l : build_graph db !! x = Some l -> l ≠ [].
Proof.
  unfold build_graph. generalize (Route_select_related db). intros rows.
  assert (Hempty : forall x l, (∅ : gmap Z (list (Z * Q))) !! x = Some l -> l ≠ [])
    by (intros ? ?; by rewrite lookup_empty).
  revert Hempty. generalize (∅ : gmap Z (list (Z * Q))) as g. revert x l.
  induction rows as [| [[r a] b] rows IH]; intros x l g Hg; simpl; [apply Hg |].
  apply IH. by apply add_edge_nonempty.
Qed.

(** X4.  [build_graph] gives each stop the arcs of the edges that start at
    it, in store order and with their distances, and nothing else: no
    reverse arc is added, and a stop is a key of the graph exactly when an
    edge starts at it. *)
Theorem build_graph_adjacency db u :
  graph_get (build_graph db) u
  = (fun r => (end_stop_id r, distance r))
      <$> filter (fun r => start_stop_id r = u) (edge_set db)
  /\ (is_Some (build_graph db !! u)
      <-> exists r, r ∈ edge_set db /\ start_stop_id r = u).
Proof.
  assert (Hget : graph_get (build_graph db) u
                 = (fun r => (end_stop_id r, distance r))
                     <$> filter (fun r => start_stop_id r = u) (edge_set db)).
  { rewrite graph_get_build_graph, arcs_edge_set.
    induction (edge_set db) as [| r rs IH]; [done |].
    rewrite fmap_cons, !filter_cons. cbn [fst].
    destruct (decide (start_stop_id r = u));
      [rewrite !fmap_cons; f_equal; exact IH | exact IH]. }
  split; [done |]. split.
  - intros [l Hl]. pose proof (build_graph_nonempty _ _ _ Hl) as Hne.
    unfold graph_get in Hget. rewrite Hl in Hget. simpl in Hget.
    destruct (filter _ (edge_set db)) as [| r rs] eqn:Hf; [by subst l |].
    exists r.
    assert (Hin : r ∈ filter (fun r => start_stop_id r = u) (edge_set db))
      by (rewrite Hf; left).
    apply list_elem_of_filter in Hin as [? ?]. done.
  - intros [r [Hr Hu]]. destruct (build_graph db !! u) as [l |] eqn:Hl; [eauto |].
    unfold graph_get in Hget. rewrite Hl in Hget. simpl in Hget.
    assert (Hin : r ∈ filter (fun r => start_stop_id r = u) (edge_set db))
      by (by apply list_elem_of_filter).
    destruct (filter _ (edge_set db)); [by apply elem_of_nil in Hin | done].
Qed.

(** ** Rounding *)







(** ** More on the provider client and the endpoint *)

(** X6.  With a credential and at least two stops,
    [ors_directions_for_stops] sends exactly one request: to the URL of the
    profile, with the coordinates of the stops in order, longitude first,
    the credential as authorization and a timeout of 20 s.  A non-success
    status or a failure to connect gives [None]; a body that parses gives
    [None] or a route, whatever its shape; a failure while the body is
    read, or a body that is not JSON, leaves the function as an
    exception. *)
Theorem ors_directions_one_request env stops0 profile w :
  OPENROUTESERVICE_API_KEY env ≠ "" -> (2 <= length stops0)%nat ->
  let req := {| req_url := ors_url profile;
                req_coordinates :=
                  (fun s => (info_longitude s, info_latitude s)) <$> stops0;
                req_authorization := OPENROUTESERVICE_API_KEY env;
                req_timeout := 20 |} in
  ors_directions_for_stops env stops0 profile w
  = (match urlopen env (length (sent w)) req with
     | RespHTTPError _ | RespURLError => Return None
     | RespTimeout => Raise SocketTimeout
     | RespSSLError => Raise SSLError
     | RespBody None => Raise ValueError
     | RespBody (Some doc) => Return (default None (parse_summary env doc))
     end, after_request w req).
Proof.
  intros Hkey Hlen req. unfold ors_directions_for_stops.
  apply String.eqb_neq in Hkey. rewrite Hkey.
  destruct stops0 as [| s0 [| s1 stops0]]; simpl in Hlen; try lia.
  cbn [orb length Nat.ltb Nat.leb].
  unfold mbind, M_bind, try_except, fmap, M_fmap, _ors_request, urlopen_read_json.
  match goal with
  | |- context [urlopen env _ ?r] => change r with req
  end.
  unfold after_request.
  by destruct (urlopen env (length (sent w)) req) as [s | | | | [doc |]].
Qed.

Lemma ors_directions_one_request_witness :
  ors_directions_for_stops down_env
    [stop_info 1 (stop_at "A" 12 75); stop_info 2 (stop_at "B" 13 76)]
    "driving-car" (fresh_world test_basic)
  = (Return None,
     after_request (fresh_world test_basic)
       {| req_url := "https://api.openrouteservice.org/v2/directions/driving-car/geojson";
          req_coordinates := [(75 : Q, 12 : Q); (76 : Q, 13 : Q)];
          req_authorization := "key"; req_timeout := 20 |}).
Proof.
  apply (ors_directions_one_request down_env
           [stop_info 1 (stop_at "A" 12 75); stop_info 2 (stop_at "B" 13 76)]
           "driving-car" (fresh_world test_basic)).
  - discriminate.
  - simpl. lia.
Defined.

(** X7.  For equal ids of a stop the endpoint answers 200 with the one-stop
    path and no "ors" key, and sends no request even when a credential is
    configured: the client of the provider needs two stops. *)
Theorem shortest_route_same_stop env w x stop :
  bus_stops (store w) !! x = Some stop ->
  shortest_route env (ParamInt x) (ParamInt x) w
  = (Return {| status := HTTP_200_OK;
               data := RouteData {| path := [x]; total_distance := 0;
                                    stops := [stop_info x stop];
                                    total_duration_min := None |} None |}, w).
Proof.
  intros Hx. unfold shortest_route, mbind, M_bind, with_store.
  unfold dijkstra_shortest_path. rewrite decide_True by done. rewrite Hx.
  unfold ors_directions_for_stops. cbn [stops length Nat.ltb Nat.leb].
  by rewrite orb_true_r.
Qed.

Lemma shortest_route_same_stop_witness :
  shortest_route up_env (ParamInt 4) (ParamInt 4) (fresh_world test_basic)
  = (Return {| status := HTTP_200_OK;
               data := RouteData
                         {| path := [4]; total_distance := 0;
                            stops := [stop_info 4 (stop_at "D" (12003 # 1000)
                                                     (75003 # 1000))];
                            total_duration_min := None |} None |},
     fresh_world test_basic).
Proof.
  apply (shortest_route_same_stop up_env (fresh_world test_basic) 4). reflexivity.
Defined.

Lemma quiet_with_store {A} (f : Store -> outcome A) : quiet (with_store f).
Proof. intros w r w'. unfold with_store. by intros [= <- <-]. Qed.

Lemma quiet_ors_directions_for_stops env stops0 profile :
  quiet (ors_directions_for_stops env stops0 profile).
Proof.
  unfold ors_directions_for_stops.
  destruct (_ || _); [apply quiet_ret |].
  apply quiet_bind.
  - apply quiet_try_except; [| apply quiet_ret].
    apply quiet_fmap, quiet_urlopen_read_json.
  - intros [data |]; apply quiet_ret.
Qed.

Lemma ors_directions_sent env stops0 profile w :
  exists reqs, sent (ors_directions_for_stops env stops0 profile w).2 = sent w ++ reqs
               /\ (length reqs <= 1)%nat
               /\ slept (ors_directions_for_stops env stops0 profile w).2 = slept w.
Proof.
  unfold ors_directions_for_stops.
  destruct (_ || _).
  - exists []. simpl. rewrite app_nil_r. split; [done |]. split; [lia | done].
  - unfold mbind, M_bind, try_except, fmap, M_fmap, _ors_request, urlopen_read_json.
    eexists [_].
    destruct (urlopen env (length (sent w)) _) as [s | | | | [doc |]]; simpl;
      (split; [reflexivity |]); (split; [lia | done]).
Qed.

(** X8.  The endpoint only reads: whatever the parameters, the store and
    the network, it leaves the store and the two artifacts as they were,
    never sleeps and sends at most one request. *)
Theorem shortest_route_read_only env origin destination w :
  let w' := (shortest_route env origin destination w).2 in
  store w' = store w
  /\ ors_stats_json w' = ors_stats_json w
  /\ ors_matrix_json w' = ors_matrix_json w
  /\ slept w' = slept w
  /\ exists reqs, sent w' = sent w ++ reqs /\ (length reqs <= 1)%nat.
Proof.
  unfold shortest_route.
  destruct origin as [| s | o], destination as [| s' | d]; simpl;
    try (repeat split; try done; exists []; rewrite app_nil_r; split; [done | simpl; lia]).
  unfold mbind, M_bind, with_store.
  destruct (dijkstra_shortest_path (store w) o d) as [[r |] | e |]; simpl;
    try (repeat split; try done; exists []; rewrite app_nil_r; split; [done | simpl; lia]).
  destruct (ors_directions_for_stops env (stops r) "driving-car" w)
    as [res w1] eqn:Hors.
  destruct (quiet_ors_directions_for_stops _ _ _ _ _ _ Hors) as [Hs [Ht Hm]].
  destruct (ors_directions_sent env (stops r) "driving-car" w)
    as [reqs [Hsent [Hlen Hslept]]].
  rewrite Hors in Hsent, Hslept. simpl in Hsent, Hslept.
  destruct res as [ors | e |]; simpl; repeat split; try done; by exists reqs.
Qed.

(** X9.  A request whose origin or destination is missing or is not an
    integer is answered 400 whatever the other parameter is, before the
    store is read. *)
Theorem shortest_route_bad_request env origin destination w :
  (forall o d, ~ (origin = ParamInt o /\ destination = ParamInt d)) ->
  exists resp,
    shortest_route env origin destination w = (Return resp, w)
    /\ status resp = HTTP_400_BAD_REQUEST.
Proof.
  intros Hbad. unfold shortest_route.
  destruct origin as [| s | o], destination as [| s' | d];
    try (eexists; split; reflexivity).
  by destruct (Hbad o d).
Qed.

Lemma shortest_route_bad_request_witness :
  exists resp,
    shortest_route up_env (ParamInt 1) (ParamNotInt "x") (fresh_world test_basic)
    = (Return resp, fresh_world test_basic)
    /\ status resp = HTTP_400_BAD_REQUEST.
Proof.
  apply (shortest_route_bad_request up_env (ParamInt 1) (ParamNotInt "x")).
  intros o d [_ H]. discriminate H.
Defined.

(** ** The retry loop *)

Lemma after_attempts_0 w req sleep_s : after_attempts w req sleep_s 0 = w.
Proof.
  unfold after_attempts. destruct w; simpl. destruct (Qltb 0 sleep_s); simpl;
    by rewrite !app_nil_r.
Qed.

Lemma after_attempts_1 w req sleep_s :
  after_attempts w req sleep_s 1 = after_request w req.
Proof.
  unfold after_attempts, after_request. simpl.
  destruct (Qltb 0 sleep_s); simpl; by rewrite !app_nil_r.
Qed.

Lemma after_attempts_S w req sleep_s k :
  (1 <= k)%nat ->
  after_attempts
    ((if Qltb 0 sleep_s then sleep sleep_s else mret tt) (after_request w req)).2
    req sleep_s k
  = after_attempts w req sleep_s (S k).
Proof.
  intros Hk. unfold after_attempts, after_request.
  destruct k as [| k]; [lia |].
  destruct (Qltb 0 sleep_s); simpl; rewrite ?Nat.sub_0_r, <- !app_assoc; done.
Qed.

Lemma retry_loop_attempts fetch req sleep_s :
  sends_once fetch req ->
  forall remaining w,
    exists k,
      (retry_loop fetch sleep_s remaining w).2 = after_attempts w req sleep_s k
      /\ (k <= remaining)%nat
      /\ ((0 < remaining)%nat -> (1 <= k)%nat)
      /\ ((retry_loop fetch sleep_s remaining w).1 = Return None -> k = remaining).
Proof.
  intros Hfetch. induction remaining as [| n IH]; intros w.
  - exists 0%nat. simpl. rewrite after_attempts_0. repeat split; try done; lia.
  - simpl. unfold mbind at 1 3, M_bind at 1 3.
    pose proof (Hfetch w) as Hw.
    destruct (fetch w) as [[[p |] | e |] w1] eqn:Hf; simpl in Hw; subst w1.
    + exists 1%nat. simpl. rewrite after_attempts_1.
      repeat split; try done; lia.
    + destruct n as [| n].
      * exists 1%nat. simpl. rewrite after_attempts_1.
        repeat split; try done; lia.
      * unfold mbind, M_bind. cbn [Nat.ltb Nat.leb andb].
        destruct (IH ((if Qltb 0 sleep_s then sleep sleep_s else mret tt)
                        (after_request w req)).2) as [k [Hw' [Hle [Hpos Hnone]]]].
        exists (S k).
        assert (Hrun : forall m : M unit,
                  (exists w2, m (after_request w req) = (Return tt, w2)) ->
                  (let (o, w') := m (after_request w req) in
                   match o with
                   | Return _ => retry_loop fetch sleep_s (S n) w'
                   | Raise e => (Raise e, w')
                   | Diverges => (Diverges, w')
                   end)
                  = retry_loop fetch sleep_s (S n) (m (after_request w req)).2).
        { intros m [w2 Hm]. by rewrite Hm. }
        rewrite Hrun by (destruct (Qltb 0 sleep_s); eexists; reflexivity).
        rewrite Hw', after_attempts_S by lia.
        repeat split; try done; try lia. intros Hr. apply Hnone in Hr. lia.
    + exists 1%nat. simpl. rewrite after_attempts_1.
      repeat split; try done; lia.
    + exists 1%nat. simpl. rewrite after_attempts_1.
      repeat split; try done; lia.
Qed.

Lemma _ors_distance_duration_sends_once env lon1 lat1 lon2 lat2 key timeout :
  sends_once (_ors_distance_duration env lon1 lat1 lon2 lat2 key timeout)
    {| req_url := ors_url "driving-car";
       req_coordinates := [(lon1, lat1); (lon2, lat2)];
       req_authorization := key; req_timeout := timeout |}.
Proof.
  intros w. unfold _ors_distance_duration, mbind, M_bind, try_except, fmap, M_fmap,
    urlopen_read_json.
  by destruct (urlopen env (length (sent w)) _) as [s | | | | [doc |]].
Qed.

Lemma ors_pair_sends_once env lon1 lat1 lon2 lat2 key timeout :
  sends_once (ors_pair env lon1 lat1 lon2 lat2 key timeout)
    {| req_url := ors_url "driving-car";
       req_coordinates := [(lon1, lat1); (lon2, lat2)];
       req_authorization := key; req_timeout := timeout |}.
Proof.
  intros w. unfold ors_pair, mbind, M_bind, try_except, fmap, M_fmap,
    urlopen_read_json.
  by destruct (urlopen env (length (sent w)) _) as [s | | | | [doc |]].
Qed.

(** X10.  For one edge the refresher sends the same request (the
    coordinates of the two stops, longitude first) at least once and at
    most [retries + 1] times, sleeps between two attempts and not after the
    last, and gives up with [None] only when the budget is used up; nothing
    else changes. *)
Theorem refresh_fetch_budget env opts (r : Route) (a b : BusStop) w :
  let req := pair_request (OPENROUTESERVICE_API_KEY env) a b
               (py_int (refresh_timeout opts)) in
  let budget := Z.to_nat (Z.max 0 (refresh_retries opts) + 1) in
  exists k,
    (1 <= k <= budget)%nat
    /\ (refresh_fetch env opts (r, a, b) w).2
       = after_attempts w req (refresh_sleep opts) k
    /\ ((refresh_fetch env opts (r, a, b) w).1 = Return None -> k = budget).
Proof.
  intros req budget. unfold refresh_fetch.
  destruct (retry_loop_attempts _ _ (refresh_sleep opts)
              (_ors_distance_duration_sends_once env
                 (longitude a) (latitude a) (longitude b) (latitude b)
                 (OPENROUTESERVICE_API_KEY env) (py_int (refresh_timeout opts)))
              budget w) as [k [Hw [Hle [Hpos Hnone]]]].
  exists k. split; [split; [apply Hpos; unfold budget; lia | done] |].
  split; [exact Hw | exact Hnone].
Qed.

(** ** More on the edge refresher *)

Lemma refresh_loop_cons env opts row rows updated skipped w :
  refresh_loop env opts (row :: rows) updated skipped w
  = match refresh_fetch env opts row w with
    | (Return answer, w1) =>
        refresh_loop env opts rows
          (match answer with Some _ => updated + 1 | None => updated end)
          (match answer with Some _ => skipped | None => skipped + 1 end)
          (after_row opts row answer w1)
    | (Raise e, w1) => (Raise e, w1)
    | (Diverges, w1) => (Diverges, w1)
    end.
Proof.
  simpl. unfold mbind at 1, M_bind at 1, after_row.
  destruct (refresh_fetch env opts row w) as [[[[d t] |] | e |] w1]; try done.
  - unfold mbind, M_bind, mret, M_ret.
    destruct (refresh_dry opts), (Qltb 0 (refresh_sleep opts)); done.
  - unfold mbind, M_bind, mret, M_ret.
    destruct (Qltb 0 (refresh_sleep opts)); done.
Qed.

(** What holds of the world before a pass and is kept by every call of
    the provider, every sleep and every save of a row of the pass holds
    after the pass, however it ends. *)
Lemma refresh_loop_invariant (Inv : world -> Prop) env opts rows :
  (forall row w, row ∈ rows -> Inv w -> Inv (refresh_fetch env opts row w).2) ->
  (forall s w, Inv w -> Inv (sleep s w).2) ->
  (forall row d t w, row ∈ rows -> Inv w -> Inv (save_route row.1.1 d t w).2) ->
  forall updated skipped w,
    Inv w -> Inv (refresh_loop env opts rows updated skipped w).2.
Proof.
  intros Hfetch Hsleep Hsave.
  induction rows as [| row rows IH]; intros updated skipped w Hw; [done |].
  rewrite refresh_loop_cons.
  pose proof (Hfetch row w ltac:(left) Hw) as H1.
  destruct (refresh_fetch env opts row w) as [[answer | e |] w1]; simpl in H1;
    try done.
  apply IH.
  - intros row' w' Hin. apply Hfetch. by right.
  - intros row' d t w' Hin. apply Hsave. by right.
  - unfold after_row.
    assert (H2 : Inv match answer with
                     | Some (d_km, dur_min) =>
                         if refresh_dry opts then w1
                         else (save_route row.1.1 d_km dur_min w1).2
                     | None => w1
                     end).
    { destruct answer as [[d t] |]; [| done].
      destruct (refresh_dry opts); [done |]. apply Hsave; [left | done]. }
    destruct (Qltb 0 (refresh_sleep opts)); [by apply Hsleep | done].
Qed.

Lemma refresh_handle_invariant (Inv : world -> Prop) env opts w :
  (forall row w', row ∈ refresh_queryset opts (store w) ->
                  Inv w' -> Inv (refresh_fetch env opts row w').2) ->
  (forall s w', Inv w' -> Inv (sleep s w').2) ->
  (forall row d t w', row ∈ refresh_queryset opts (store w) ->
                      Inv w' -> Inv (save_route row.1.1 d t w').2) ->
  (forall u s w', Inv w' -> Inv (write_stats env u s w').2) ->
  Inv w -> Inv (refresh_handle env opts w).2.
Proof.
  intros Hfetch Hsleep Hsave Hstats Hw. unfold refresh_handle.
  destruct (String.eqb _ _); [done |].
  unfold mbind at 1, M_bind at 1, with_store. unfold mbind, M_bind.
  pose proof (refresh_loop_invariant Inv env opts _ Hfetch Hsleep Hsave 0 0 w Hw)
    as Hloop.
  destruct (refresh_loop env opts _ 0 0 w) as [[counters | e |] w1]; simpl in Hloop;
    try done.
  by apply Hstats.
Qed.

Lemma save_route_skeleton r d t w :
  skeleton (routes (store (save_route r d t w).2)) = skeleton (routes (store w))
  /\ bus_stops (store (save_route r d t w).2) = bus_stops (store w).
Proof.
  simpl. split; [| done]. unfold skeleton. rewrite <- list_fmap_compose.
  apply list_fmap_ext. intros i r' _. simpl. by destruct (decide _).
Qed.

(** X11.  However a pass of the refresher ends, the stops are untouched and
    the edges are the same edges: same rows in the same order, each with
    its primary key, start and end; only distances and durations can have
    changed.  The matrix artifact is untouched. *)
Theorem refresh_keeps_edges env opts w :
  let w' := (refresh_handle env opts w).2 in
  bus_stops (store w') = bus_stops (store w)
  /\ skeleton (routes (store w')) = skeleton (routes (store w))
  /\ ors_matrix_json w' = ors_matrix_json w.
Proof.
  apply (refresh_handle_invariant
           (fun w' => bus_stops (store w') = bus_stops (store w)
                      /\ skeleton (routes (store w')) = skeleton (routes (store w))
                      /\ ors_matrix_json w' = ors_matrix_json w)).
  - intros row w' _ [H1 [H2 H3]].
    destruct (refresh_fetch env opts row w') as [res w1] eqn:Hf.
    destruct (quiet_refresh_fetch _ _ _ _ _ _ Hf) as [Hs [_ Hm]]. simpl.
    rewrite Hs, Hm. done.
  - intros s w' H. exact H.
  - intros row d t w' _ [H1 [H2 H3]].
    destruct (save_route_skeleton row.1.1 d t w') as [Hsk Hb].
    rewrite Hsk, Hb. done.
  - intros u s w' H. unfold write_stats. by destruct (data_dir_writable env).
  - done.
Qed.

Lemma save_route_other r d t w j r0 :
  route_pk r0 ≠ route_pk r ->
  routes (store w) !! j = Some r0 ->
  routes (store (save_route r d t w).2) !! j = Some r0.
Proof.
  intros Hpk Hj. simpl. rewrite list_lookup_fmap, Hj. simpl.
  by destruct (decide _).
Qed.

Lemma save_route_same r d t w j r0 :
  route_pk r0 = route_pk r ->
  routes (store w) !! j = Some r0 ->
  routes (store (save_route r d t w).2) !! j = Some (with_values r0 d t).
Proof.
  intros Hpk Hj. simpl. rewrite list_lookup_fmap, Hj. simpl.
  by destruct (decide _).
Qed.

(** A row whose key is not among those of the pass is not touched. *)
Lemma refresh_loop_other env opts rows j r0 updated skipped w :
  route_pk r0 ∉ pass_pks rows ->
  routes (store w) !! j = Some r0 ->
  routes (store (refresh_loop env opts rows updated skipped w).2) !! j = Some r0.
Proof.
  intros Hpk.
  apply (refresh_loop_invariant (fun w' => routes (store w') !! j = Some r0)).
  - intros row w' _ Hw'.
    destruct (refresh_fetch env opts row w') as [res w1] eqn:Hf.
    destruct (quiet_refresh_fetch _ _ _ _ _ _ Hf) as [Hs _]. simpl. by rewrite Hs.
  - intros s w' Hw'. exact Hw'.
  - intros row d t w' Hin Hw'. apply save_route_other; [| done].
    intros Heq. apply Hpk. unfold pass_pks. apply list_elem_of_fmap.
    exists row. done.
Qed.

Lemma refresh_handle_other env opts j r0 w :
  route_pk r0 ∉ pass_pks (refresh_queryset opts (store w)) ->
  routes (store w) !! j = Some r0 ->
  routes (store (refresh_handle env opts w).2) !! j = Some r0.
Proof.
  intros Hpk Hj.
  apply (refresh_handle_invariant (fun w' => routes (store w') !! j = Some r0)).
  - intros row w' _ Hw'.
    destruct (refresh_fetch env opts row w') as [res w1] eqn:Hf.
    destruct (quiet_refresh_fetch _ _ _ _ _ _ Hf) as [Hs _]. simpl. by rewrite Hs.
  - intros s w' Hw'. exact Hw'.
  - intros row d t w' Hin Hw'. apply save_route_other; [| done].
    intros Heq. apply Hpk. unfold pass_pks. apply list_elem_of_fmap.
    exists row. done.
  - intros u s w' Hw'. unfold write_stats. by destruct (data_dir_writable env).
  - done.
Qed.

Lemma elem_of_select_related db row :
  row ∈ Route_select_related db -> row.1.1 ∈ routes db.
Proof.
  unfold Route_select_related. intros Hin.
  apply list_elem_of_omap in Hin as [r [Hr Hj]].
  destruct (bus_stops db !! start_stop_id r), (bus_stops db !! end_stop_id r);
    try done.
  by injection Hj as <-.
Qed.

Lemma refresh_queryset_sublist opts db :
  sublist (refresh_queryset opts db) (Route_select_related db).
Proof.
  unfold refresh_queryset.
  set (qs := if refresh_skip_existing opts then _ else _).
  assert (Hqs : sublist qs (Route_select_related db)).
  { unfold qs. destruct (refresh_skip_existing opts); [apply sublist_filter | done]. }
  destruct (0 <? refresh_limit opts); [| done].
  etrans; [apply sublist_take | done].
Qed.

Lemma elem_of_refresh_queryset opts db row :
  row ∈ refresh_queryset opts db ->
  row.1.1 ∈ routes db
  /\ (refresh_skip_existing opts = true -> (distance row.1.1 <= 0)%Q).
Proof.
  intros Hin. split.
  - apply elem_of_select_related.
    eapply elem_of_sublist; [done | apply refresh_queryset_sublist].
  - intros Hskip. unfold refresh_queryset in Hin. rewrite Hskip in Hin.
    assert (Hf : row ∈ filter (fun '(r, _, _) => Qle_bool (distance r) 0 = true)
                         (Route_select_related db)).
    { destruct (0 <? refresh_limit opts); [| done].
      eapply elem_of_sublist; [done | apply sublist_take]. }
    apply list_elem_of_filter in Hf as [Hle _].
    destruct row as [[r a] b]. simpl. by apply Qle_bool_iff.
Qed.

Lemma NoDup_pk_eq (rs : list Route) r1 r2 :
  NoDup (route_pk <$> rs) -> r1 ∈ rs -> r2 ∈ rs -> route_pk r1 = route_pk r2 ->
  r1 = r2.
Proof.
  intros Hnd H1 H2 Hpk.
  apply list_elem_of_lookup in H1 as [i Hi]. apply list_elem_of_lookup in H2 as [j Hj].
  assert (i = j) as ->.
  { eapply NoDup_lookup; [exact Hnd | |].
    - rewrite list_lookup_fmap, Hi. reflexivity.
    - rewrite list_lookup_fmap, Hj. simpl. by rewrite Hpk. }
  congruence.
Qed.

(** X12.  With [--skip-existing] an edge that already has a positive
    distance keeps its row as it is, however the pass ends and whatever the
    provider answers (primary keys being unique). *)
Theorem refresh_skip_existing_keeps env opts w j r :
  NoDup (route_pk <$> routes (store w)) ->
  refresh_skip_existing opts = true ->
  routes (store w) !! j = Some r ->
  (0 < distance r)%Q ->
  routes (store (refresh_handle env opts w).2) !! j = Some r.
Proof.
  intros Hnd Hskip Hj Hpos. apply refresh_handle_other; [| done].
  intros Hin. unfold pass_pks in Hin. apply list_elem_of_fmap in Hin as [row [Hpk Hrow]].
  apply elem_of_refresh_queryset in Hrow as [Hr Hle]. specialize (Hle Hskip).
  assert (r = row.1.1) as ->.
  { eapply NoDup_pk_eq; [exact Hnd | | done | done].
    apply list_elem_of_lookup. by exists j. }
  apply Qle_not_lt in Hle. done.
Qed.

Lemma refresh_skip_existing_keeps_witness :
  routes (store (refresh_handle up_env
                   {| refresh_sleep := 0; refresh_limit := 0; refresh_dry := false;
                      refresh_skip_existing := true; refresh_timeout := 10;
                      refresh_retries := 1 |}
                   (fresh_world
                      {| bus_stops := test_stops;
                         routes := [mk_route 1 1 2 1 None;
                                    mk_route 2 2 3 0 None] |})).2) !! 0%nat
  = Some (mk_route 1 1 2 1 None).
Proof.
  apply (refresh_skip_existing_keeps up_env _ (fresh_world _)).
  - apply (bool_decide_unpack _). by vm_compute.
  - reflexivity.
  - reflexivity.
  - reflexivity.
Defined.

Lemma refresh_fetch_sent env opts row w :
  exists k,
    (1 <= k <= Z.to_nat (Z.max 0 (refresh_retries opts) + 1))%nat
    /\ length (sent (refresh_fetch env opts row w).2) = (length (sent w) + k)%nat.
Proof.
  destruct row as [[r a] b]. unfold refresh_fetch.
  destruct (retry_loop_attempts _ _ (refresh_sleep opts)
              (_ors_distance_duration_sends_once env
                 (longitude a) (latitude a) (longitude b) (latitude b)
                 (OPENROUTESERVICE_API_KEY env) (py_int (refresh_timeout opts)))
              (Z.to_nat (Z.max 0 (refresh_retries opts) + 1)) w)
    as [k [Hw [Hle [Hpos Hnone]]]].
  exists k. split; [split; [apply Hpos; lia | done] |].
  rewrite Hw. simpl. by rewrite length_app, length_replicate.
Qed.

Lemma after_row_sent opts row answer w :
  sent (after_row opts row answer w) = sent w.
Proof.
  unfold after_row. destruct answer as [[d t] |];
    destruct (refresh_dry opts), (Qltb 0 (refresh_sleep opts)); done.
Qed.

Lemma refresh_loop_sent env opts rows : forall updated skipped w,
  let budget := Z.to_nat (Z.max 0 (refresh_retries opts) + 1) in
  let w' := (refresh_loop env opts rows updated skipped w).2 in
  (length (sent w') <= length (sent w) + length rows * budget)%nat
  /\ (forall counters, (refresh_loop env opts rows updated skipped w).1 = Return counters ->
      (length (sent w) + length rows <= length (sent w'))%nat).
Proof.
  induction rows as [| row rows IH]; intros updated skipped w budget w'.
  - subst w'. simpl. split; [lia | intros; lia].
  - subst w'. rewrite refresh_loop_cons.
    destruct (refresh_fetch_sent env opts row w) as [k [Hk Hlen]]. fold budget in Hk.
    destruct (refresh_fetch env opts row w) as [[answer | e |] w1]; simpl in Hlen.
    + match goal with |- context [refresh_loop env opts rows ?u ?s ?w2] =>
        destruct (IH u s w2) as [IH1 IH2] end.
      rewrite after_row_sent, Hlen in IH1, IH2. fold budget in IH1.
      split; [simpl; nia |]. intros counters Hc. specialize (IH2 _ Hc). simpl. lia.
    + simpl. split; [nia | done].
    + simpl. split; [nia | done].
Qed.

(** X13.  A pass of the refresher sends at most [retries + 1] requests per
    edge of the pass, and with a positive [--limit] the pass has at most
    that many edges; a pass that completes has sent at least one request
    per edge. *)
Theorem refresh_request_bound env opts w :
  let budget := Z.to_nat (Z.max 0 (refresh_retries opts) + 1) in
  let rows := refresh_queryset opts (store w) in
  let w' := (refresh_handle env opts w).2 in
  (length (sent w') <= length (sent w) + length rows * budget)%nat
  /\ (length rows <= length (routes (store w)))%nat
  /\ (0 < refresh_limit opts -> Z.of_nat (length rows) <= refresh_limit opts)
  /\ (OPENROUTESERVICE_API_KEY env ≠ "" ->
      (refresh_handle env opts w).1 = Return tt ->
      (length (sent w) + length rows <= length (sent w'))%nat).
Proof.
  intros budget rows w'. split; [| split; [| split]].
  - subst w'. unfold refresh_handle. destruct (String.eqb _ _); [simpl; lia |].
    unfold mbind at 1, M_bind at 1, with_store. unfold mbind, M_bind.
    pose proof (refresh_loop_sent env opts rows 0 0 w) as [H1 _]. fold budget in H1.
    fold rows. destruct (refresh_loop env opts rows 0 0 w) as [[c | e |] w1];
      simpl in H1; try done.
    unfold write_stats. by destruct (data_dir_writable env).
  - etrans; [apply sublist_length, refresh_queryset_sublist |].
    pose proof (length_arcs (store w)) as H. unfold arcs in H.
    by rewrite length_fmap in H.
  - intros Hlim. unfold rows, refresh_queryset.
    apply Z.ltb_lt in Hlim as Hlim'. rewrite Hlim'. rewrite length_take. lia.
  - intros Hkey Hret. subst w'. revert Hret. unfold refresh_handle.
    apply String.eqb_neq in Hkey. rewrite Hkey.
    unfold mbind at 1 3, M_bind at 1 3, with_store. unfold mbind, M_bind.
    pose proof (refresh_loop_sent env opts rows 0 0 w) as [_ H2].
    fold rows. destruct (refresh_loop env opts rows 0 0 w) as [[c | e |] w1];
      simpl in H2; try done.
    intros _. specialize (H2 c eq_refl).
    unfold write_stats. by destruct (data_dir_writable env).
Qed.

Lemma refresh_loop_counters env opts rows : forall updated skipped w counters,
  (refresh_loop env opts rows updated skipped w).1 = Return counters ->
  updated <= counters.1 /\ skipped <= counters.2
  /\ counters.1 + counters.2 = updated + skipped + Z.of_nat (length rows).
Proof.
  induction rows as [| row rows IH]; intros updated skipped w counters.
  - simpl. intros [= <-]. simpl. lia.
  - rewrite refresh_loop_cons.
    destruct (refresh_fetch env opts row w) as [[answer | e |] w1]; try done.
    intros Hc. apply IH in Hc. destruct answer; simpl length; lia.
Qed.

(** X14.  When a pass of the refresher completes (with a credential and a
    writable data directory) the artifact counts every edge of the pass
    exactly once, as updated or as skipped, and carries the time of the
    run. *)
Theorem refresh_stats_count_pass env opts w :
  OPENROUTESERVICE_API_KEY env ≠ "" ->
  data_dir_writable env = true ->
  (refresh_handle env opts w).1 = Return tt ->
  exists st,
    ors_stats_json (refresh_handle env opts w).2 = Some st
    /\ 0 <= stats_updated st /\ 0 <= stats_skipped st
    /\ stats_updated st + stats_skipped st
       = Z.of_nat (length (refresh_queryset opts (store w)))
    /\ stats_timestamp st = utc_now env.
Proof.
  intros Hkey Hdir. unfold refresh_handle.
  apply String.eqb_neq in Hkey. rewrite Hkey.
  unfold mbind, M_bind, with_store.
  pose proof (refresh_loop_counters env opts (refresh_queryset opts (store w)) 0 0 w)
    as Hc.
  destruct (refresh_loop env opts _ 0 0 w) as [[c | e |] w1]; try done.
  intros _. specialize (Hc c eq_refl). unfold write_stats. rewrite Hdir. simpl.
  eexists. split; [reflexivity |].
  cbn [stats_updated stats_skipped stats_timestamp]. repeat split; try done; lia.
Qed.

Lemma refresh_stats_count_pass_witness :
  exists st,
    ors_stats_json (refresh_handle up_env (default_refresh false)
                      (fresh_world test_basic)).2 = Some st
    /\ 0 <= stats_updated st /\ 0 <= stats_skipped st
    /\ stats_updated st + stats_skipped st
       = Z.of_nat (length (refresh_queryset (default_refresh false)
                             (store (fresh_world test_basic))))
    /\ stats_timestamp st = utc_now up_env.
Proof.
  apply (refresh_stats_count_pass up_env (default_refresh false)
           (fresh_world test_basic)).
  - done.
  - reflexivity.
  - by vm_compute.
Defined.

Lemma pass_pks_select_related db :
  sublist (pass_pks (Route_select_related db)) (route_pk <$> routes db).
Proof.
  unfold pass_pks, Route_select_related.
  induction (routes db) as [| r rs IH]; [done |].
  cbn [omap list_omap].
  destruct (bus_stops db !! start_stop_id r), (bus_stops db !! end_stop_id r);
    rewrite ?fmap_cons; simpl; by constructor.
Qed.

Lemma NoDup_pass_pks opts db :
  NoDup (route_pk <$> routes db) -> NoDup (pass_pks (refresh_queryset opts db)).
Proof.
  intros Hnd. eapply sublist_NoDup; [exact Hnd |].
  etrans; [| apply pass_pks_select_related].
  unfold pass_pks. apply fmap_sublist, refresh_queryset_sublist.
Qed.

Lemma after_row_other opts row answer w j r0 :
  route_pk r0 ≠ route_pk row.1.1 ->
  routes (store w) !! j = Some r0 ->
  routes (store (after_row opts row answer w)) !! j = Some r0.
Proof.
  intros Hpk Hj. unfold after_row.
  assert (H2 : routes (store match answer with
                             | Some (d_km, dur_min) =>
                                 if refresh_dry opts then w
                                 else (save_route row.1.1 d_km dur_min w).2
                             | None => w
                             end) !! j = Some r0).
  { destruct answer as [[d t] |]; [| done].
    destruct (refresh_dry opts); [done |]. by apply save_route_other. }
  by destruct (Qltb 0 (refresh_sleep opts)).
Qed.

Lemma refresh_loop_persists env opts :
  refresh_dry opts = false ->
  forall rows updated skipped w i row d t j r0,
    NoDup (pass_pks rows) ->
    rows !! i = Some row ->
    refresh_fetches env opts rows w !! i = Some (Some (d, t)) ->
    routes (store w) !! j = Some r0 ->
    route_pk r0 = route_pk row.1.1 ->
    routes (store (refresh_loop env opts rows updated skipped w).2) !! j
    = Some (with_values r0 d t).
Proof.
  intros Hdry. induction rows as [| row0 rows IH];
    intros updated skipped w i row d t j r0 Hnd Hi Hf Hj Hpk; [done |].
  rewrite refresh_loop_cons. simpl in Hf. fold (after_row opts row0) in Hf.
  apply NoDup_cons in Hnd as [Hnotin Hnd].
  destruct (refresh_fetch env opts row0 w) as [[answer | e |] w1] eqn:Hfetch;
    try done.
  destruct (quiet_refresh_fetch _ _ _ _ _ _ Hfetch) as [Hs _].
  destruct i as [| i]; simpl in Hi, Hf.
  - injection Hi as ->. injection Hf as ->.
    apply refresh_loop_other.
    + simpl. by rewrite Hpk.
    + unfold after_row. rewrite Hdry.
      assert (H2 : routes (store (save_route row.1.1 d t w1).2) !! j
                   = Some (with_values r0 d t)).
      { apply save_route_same; [done | by rewrite Hs]. }
      by destruct (Qltb 0 (refresh_sleep opts)).
  - eapply IH; try done.
    apply after_row_other; [| by rewrite Hs].
    rewrite Hpk. intros Heq. apply Hnotin. rewrite <- Heq.
    unfold pass_pks. apply list_elem_of_fmap. exists row. split; [done |].
    apply list_elem_of_lookup. by exists i.
Qed.

(** X15.  In a run that is not dry, once the provider has answered for an
    edge of the pass, the row of that edge holds the answer (kilometres and
    minutes) and is otherwise the same, whatever happens to the rest of the
    pass (primary keys being unique). *)
Theorem refresh_persists_answer env opts w i r a b d t j :
  OPENROUTESERVICE_API_KEY env ≠ "" ->
  NoDup (route_pk <$> routes (store w)) ->
  refresh_dry opts = false ->
  refresh_queryset opts (store w) !! i = Some (r, a, b) ->
  refresh_fetches env opts (refresh_queryset opts (store w)) w !! i
  = Some (Some (d, t)) ->
  routes (store w) !! j = Some r ->
  routes (store (refresh_handle env opts w).2) !! j = Some (with_values r d t).
Proof.
  intros Hkey Hnd Hdry Hi Hf Hj. unfold refresh_handle.
  apply String.eqb_neq in Hkey. rewrite Hkey.
  unfold mbind at 1, M_bind at 1, with_store. unfold mbind, M_bind.
  pose proof (refresh_loop_persists env opts Hdry _ 0 0 w i (r, a, b) d t j r
                (NoDup_pass_pks opts _ Hnd) Hi Hf Hj eq_refl) as Hloop.
  destruct (refresh_loop env opts _ 0 0 w) as [[c | e |] w1]; simpl in Hloop;
    try done.
  unfold write_stats. by destruct (data_dir_writable env).
Qed.

Lemma refresh_persists_answer_witness :
  routes (store (refresh_handle up_env (default_refresh false)
                   (fresh_world test_basic)).2) !! 1%nat
  = Some (with_values (mk_route 2 2 3 1 None) (1500 # 1000) (120 # 60)).
Proof.
  apply (refresh_persists_answer up_env (default_refresh false)
           (fresh_world test_basic) 1
           (mk_route 2 2 3 1 None)
           (stop_at "B" (12001 # 1000) (75001 # 1000))
           (stop_at "C" (12002 # 1000) (75002 # 1000))).
  - done.
  - apply (bool_decide_unpack _). by vm_compute.
  - reflexivity.
  - by vm_compute.
  - by vm_compute.
  - reflexivity.
Defined.

(** ** More on the matrix builder *)

Lemma matrix_entry_for env opts a b w e w' :
  matrix_entry env opts a b w = (Return e, w') -> entry_for env a b e.
Proof.
  unfold matrix_entry, mbind, M_bind.
  match goal with
  | |- (let (_, _) := ?m in _) = _ -> _ =>
      destruct m as [[[[d t] |] | ex |] w1]; try done
  end.
  - intros [= <- <-]. right. by exists d, t.
  - intros [= <- <-]. by left.
Qed.

Lemma allowance_reached opts count :
  limit_reached opts (count + 1) = true -> allowance opts count = Some 1%nat.
Proof.
  unfold limit_reached, allowance. intros H. apply andb_true_iff in H as [H1 H2].
  apply negb_true_iff in H1. rewrite H1. apply Z.leb_le in H2. f_equal. lia.
Qed.

Lemma allowance_not_reached opts count :
  limit_reached opts (count + 1) = false ->
  allowance opts count = S <$> allowance opts (count + 1).
Proof.
  unfold limit_reached, allowance. intros H.
  destruct (matrix_limit opts =? 0) eqn:H0; [done |]. simpl in H.
  apply Z.leb_gt in H. simpl. f_equal. lia.
Qed.

Lemma allowance_pos opts count k : allowance opts count = Some k -> (1 <= k)%nat.
Proof.
  unfold allowance. destruct (matrix_limit opts =? 0); [done |].
  intros [= <-]. lia.
Qed.

Lemma allowance_after opts count k (m : nat) :
  allowance opts count = Some k -> (m < k)%nat ->
  allowance opts (count + Z.of_nat m) = Some (k - m)%nat.
Proof.
  unfold allowance. destruct (matrix_limit opts =? 0); [done |].
  intros [= <-] Hm. f_equal. lia.
Qed.

Lemma matrix_inner_shape env opts i a js :
  forall results count w res' count' w',
    matrix_inner env opts i a js results count w = (Return (res', count'), w') ->
    exists new,
      res' = results ++ new
      /\ count' = count + Z.of_nat (length new)
      /\ Forall2 (fun e b => entry_for env a b e) new
           (capped (allowance opts count) (others i js))
      /\ (new ≠ [] ->
          (limit_reached opts count' = true
           <-> allowance opts count = Some (length new))).
Proof.
  induction js as [| [j b] js IH]; intros results count w res' count' w'.
  - simpl. intros [= <- <- <-]. exists []. rewrite app_nil_r.
    split; [done |]. split; [simpl; lia |]. split; [| done].
    unfold others. simpl. destruct (allowance opts count); simpl;
      rewrite ?take_nil; constructor.
  - destruct (decide (i = j)) as [<- | Hij].
    + rewrite matrix_inner_same, others_cons_same. apply IH.
    + rewrite others_cons_other by done. cbn [matrix_inner].
      apply Nat.eqb_neq in Hij as Hij'. rewrite Hij'.
      unfold mbind at 1, M_bind at 1.
      destruct (matrix_entry env opts a b w) as [[e | ex |] w1] eqn:He; try done.
      apply matrix_entry_for in He.
      destruct (limit_reached opts (count + 1)) eqn:Hreached.
      * intros [= <- <- <-]. exists [e]. split; [done |]. split; [done |].
        rewrite (allowance_reached _ _ Hreached). simpl. rewrite take_0.
        split; [constructor; [exact He | constructor] |]. intros _. by rewrite Hreached.
      * unfold mbind, M_bind.
        set (w2 := ((if Qltb 0 (matrix_sleep opts)
                        && negb (String.eqb (OPENROUTESERVICE_API_KEY env) "")
                     then sleep (matrix_sleep opts) else mret tt) w1)).
        assert (Hw2 : w2 = (Return tt, w2.2))
          by (unfold w2; destruct (_ && _); done).
        rewrite Hw2. intros Hrun. apply IH in Hrun as [new [-> [-> [Hall Hlast]]]].
        exists (e :: new). rewrite <- app_assoc. split; [done |].
        split; [simpl length; lia |].
        rewrite (allowance_not_reached _ _ Hreached).
        destruct (allowance opts (count + 1)) as [k |] eqn:Hal; simpl.
        -- split; [by constructor |]. intros _.
           destruct new as [| e' new].
           ++ cbn [length Z.of_nat]. rewrite Z.add_0_r.
              rewrite Hreached. apply allowance_pos in Hal.
              split; [done | intros [= ?]; lia].
           ++ rewrite Hlast by done. split; intros [= ->]; done.
        -- split; [by constructor |]. intros _.
           destruct new as [| e' new].
           ++ cbn [length Z.of_nat]. rewrite Z.add_0_r.
              by rewrite Hreached.
           ++ rewrite Hlast by done. done.
Qed.

Lemma capped_nonempty {A} opts count (l : list A) :
  l ≠ [] -> capped (allowance opts count) l ≠ [].
Proof.
  intros Hl. destruct (allowance opts count) as [k |] eqn:Hal; [| done]. simpl.
  apply allowance_pos in Hal. destruct k as [| k]; [lia |]. by destruct l.
Qed.

Lemma matrix_outer_shape env opts all :
  forall todo results count w res' count' w',
    (forall ia, ia ∈ todo -> others ia.1 all ≠ []) ->
    matrix_outer env opts all todo results count w = (Return (res', count'), w') ->
    exists new,
      res' = results ++ new
      /\ Forall2 (fun e ab => entry_for env ab.1 ab.2 e) new
           (capped (allowance opts count) (stop_pairs all todo)).
Proof.
  induction todo as [| [i a] todo IH]; intros results count w res' count' w' Hne.
  - simpl. intros [= <- <- <-]. exists []. rewrite app_nil_r. split; [done |].
    unfold stop_pairs. simpl. destruct (allowance opts count); simpl;
      rewrite ?take_nil; constructor.
  - cbn [matrix_outer]. unfold mbind at 1, M_bind at 1.
    destruct (matrix_inner env opts i a all results count w)
      as [[[res1 count1] | ex |] w1] eqn:Hinner; try done.
    apply matrix_inner_shape in Hinner as [new1 [-> [-> [Hall Hlast]]]].
    assert (Ho : others i all ≠ []) by (apply (Hne (i, a)); left).
    assert (Hnew1 : new1 ≠ []).
    { intros ->. apply Forall2_nil_inv_l in Hall.
      by apply (capped_nonempty opts count) in Ho. }
    specialize (Hlast Hnew1).
    assert (Hpairs : stop_pairs all ((i, a) :: todo)
                     = ((fun b => (a, b)) <$> others i all) ++ stop_pairs all todo)
      by done.
    rewrite Hpairs.
    assert (Hall' : forall l, Forall2 (fun e b => entry_for env a b e) new1 l ->
                    Forall2 (fun e ab => entry_for env ab.1 ab.2 e) new1
                      ((fun b => (a, b)) <$> l)).
    { intros l H. apply Forall2_fmap_r. exact H. }
    apply Forall2_length in Hall as Hlen.
    cbn [fst snd].
    destruct (limit_reached opts (count + Z.of_nat (length new1))) eqn:Hreached.
    + intros [= <- <- <-]. exists new1. split; [done |].
      destruct Hlast as [Hlast _]. specialize (Hlast eq_refl). rewrite Hlast in *.
      simpl in *. rewrite length_take in Hlen.
      rewrite take_app_le by (rewrite length_fmap; lia).
      rewrite <- fmap_take. by apply Hall'.
    + intros Hrun. apply IH in Hrun as [new2 [-> Hall2]];
        [| intros ia Hia; apply Hne; by right].
      exists (new1 ++ new2). rewrite app_assoc. split; [done |].
      destruct (allowance opts count) as [k |] eqn:Hal; simpl in *.
      * rewrite length_take in Hlen.
        assert (Hk : (length (others i all) < k)%nat).
        { destruct (decide (length (others i all) < k)%nat); [done |].
          assert (Some k = Some (length new1)) as Heq by (f_equal; lia).
          apply Hlast in Heq. done. }
        rewrite take_ge in Hall by lia.
        assert (Hlen1 : length new1 = length (others i all)) by lia.
        rewrite (allowance_after opts count k (length new1) Hal) in Hall2 by lia.
        simpl in Hall2.
        rewrite take_app_ge by (rewrite length_fmap; lia).
        rewrite length_fmap, <- Hlen1.
        apply Forall2_app; [by apply Hall' | done].
      * assert (Hal2 : allowance opts (count + Z.of_nat (length new1)) = None).
        { revert Hal. unfold allowance. by destruct (matrix_limit opts =? 0). }
        rewrite Hal2 in Hall2. simpl in Hall2.
        apply Forall2_app; [by apply Hall' | done].
Qed.

Lemma filter_all {A} (P : A -> Prop) `{!forall x, Decision (P x)} (l : list A) :
  Forall P l -> filter P l = l.
Proof.
  induction 1 as [| x l Hx _ IH]; [done |]. rewrite filter_cons_True by done.
  by rewrite IH.
Qed.

Lemma length_others_NoDup i a (l : list (nat * (Z * BusStop))) :
  NoDup l.*1 -> (i, a) ∈ l -> S (length (others i l)) = length l.
Proof.
  unfold others. rewrite length_fmap.
  induction l as [| [j b] l IH]; intros Hnd Hin; [by apply elem_of_nil in Hin |].
  rewrite fmap_cons in Hnd. apply NoDup_cons in Hnd as [Hj Hnd]. simpl in Hj.
  destruct (decide (j = i)) as [-> | Hji].
  - rewrite filter_cons_False by (simpl; auto). simpl. f_equal.
    f_equal. apply filter_all. apply Forall_forall. intros [j' b'] Hin' Heq.
    simpl in Heq. subst j'. apply Hj. apply list_elem_of_fmap. by exists (i, b').
  - rewrite filter_cons_True by done. simpl. f_equal. apply IH; [done |].
    apply elem_of_cons in Hin as [[= <- <-] | Hin]; done.
Qed.

Lemma NoDup_indexed {A} (l : list A) : NoDup (zip (seq 0 (length l)) l).*1.
Proof. rewrite fst_zip by (rewrite length_seq; lia). apply NoDup_seq. Qed.

Lemma length_stop_pairs all todo :
  NoDup all.*1 -> (forall ia, ia ∈ todo -> ia ∈ all) ->
  length (stop_pairs all todo) = (length todo * (length all - 1))%nat.
Proof.
  intros Hnd. unfold stop_pairs.
  induction todo as [| [i a] todo IH]; intros Hin; [done |].
  cbn [mbind list_bind]. rewrite length_app, length_fmap.
  fold (mbind (M := list)
          (fun ia : nat * (Z * BusStop) => (fun b => (ia.2, b)) <$> others ia.1 all) todo).
  rewrite IH by (intros ia Hia; apply Hin; by right).
  pose proof (length_others_NoDup i a all Hnd (Hin _ ltac:(left))) as Hlen.
  simpl. lia.
Qed.

Lemma length_indexed {A} (l : list A) : length (zip (seq 0 (length l)) l) = length l.
Proof. rewrite length_zip, length_seq. lia. Qed.




(** X16.  Whenever the matrix builder computes a matrix, its entries are,
    in order, those of the ordered pairs of stops at distinct positions of
    the stops sorted by id (each the estimate or the provider's rounded
    values), cut after [--limit] pairs; a negative limit cuts after the
    first pair.  There are n (n - 1) such pairs for n stops. *)
Theorem matrix_pairs_in_order env opts w results w' :
  matrix_compute env opts w = (Return results, w') ->
  let stops := BusStop_order_by_id (store w) in
  let all := zip (seq 0 (length stops)) stops in
  let n := size (bus_stops (store w)) in
  Forall2 (fun e ab => entry_for env ab.1 ab.2 e) results
    (capped (allowance opts 0) (stop_pairs all all))
  /\ length (stop_pairs all all) = (n * (n - 1))%nat.
Proof.
  intros Hrun stops all n. split.
  - revert Hrun. unfold matrix_compute.
    unfold mbind at 1, M_bind at 1, with_store. fold stops. cbv zeta. fold all.
    unfold mbind, M_bind.
    destruct (matrix_outer env opts all all [] 0 w) as [[[res count] | ex |] w1]
      eqn:Houter; try done.
    intros [= <- <-]. simpl.
    destruct (decide (length stops <= 1)%nat) as [Hsmall | Hbig].
    + assert (Hres : res = [] /\ stop_pairs all all = []).
      { revert Houter. unfold all.
        destruct stops as [| a [| b rest]]; [| | simpl in Hsmall; lia].
        - simpl. by intros [= <- <- <-].
        - simpl. unfold mbind, M_bind, mret, M_ret.
          destruct (limit_reached opts _); by intros [= <- <- <-]. }
      destruct Hres as [-> ->].
      destruct (allowance opts 0); simpl; rewrite ?take_nil; constructor.
    + apply matrix_outer_shape in Houter as [new [-> Hall]]; [done |].
      intros [i a] Hia Hnil.
      pose proof (length_others_NoDup i a all (NoDup_indexed stops) Hia) as Hlen.
      simpl in Hnil. rewrite Hnil in Hlen. unfold all in Hlen.
      rewrite length_indexed in Hlen. simpl in Hlen. lia.
  - rewrite length_stop_pairs by (apply NoDup_indexed || done).
    unfold all. rewrite length_indexed. unfold stops, n.
    by rewrite length_order_by_id.
Qed.

Lemma matrix_pairs_in_order_witness :
  exists results,
    (matrix_compute up_env (default_matrix 4) (fresh_world three_stops)).1
    = Return results
    /\ Forall2 (fun e ab => entry_for up_env ab.1 ab.2 e) results
         (capped (allowance (default_matrix 4) 0)
            (stop_pairs
               (zip (seq 0 (length (BusStop_order_by_id three_stops)))
                  (BusStop_order_by_id three_stops))
               (zip (seq 0 (length (BusStop_order_by_id three_stops)))
                  (BusStop_order_by_id three_stops))))
    /\ length (stop_pairs
                 (zip (seq 0 (length (BusStop_order_by_id three_stops)))
                    (BusStop_order_by_id three_stops))
                 (zip (seq 0 (length (BusStop_order_by_id three_stops)))
                    (BusStop_order_by_id three_stops)))
       = (size (bus_stops three_stops) * (size (bus_stops three_stops) - 1))%nat.
Proof.
  eexists. split; [vm_compute; reflexivity |].
  eapply (matrix_pairs_in_order up_env (default_matrix 4) (fresh_world three_stops)).
  vm_compute. reflexivity.
Defined.

Lemma quiet_matrix_entry env opts a b : quiet (matrix_entry env opts a b).
Proof.
  unfold matrix_entry. apply quiet_bind.
  - destruct (negb _); [| apply quiet_ret].
    apply quiet_retry_loop, quiet_ors_pair.
  - intros [[d t] |]; apply quiet_ret.
Qed.

Lemma quiet_matrix_inner env opts i a js :
  forall results count, quiet (matrix_inner env opts i a js results count).
Proof.
  induction js as [| [j b] js IH]; intros results count; simpl; [apply quiet_ret |].
  destruct (i =? j)%nat; [apply IH |].
  apply quiet_bind; [apply quiet_matrix_entry |]. intros e.
  destruct (limit_reached opts (count + 1)); [apply quiet_ret |].
  apply quiet_bind; [| intros; apply IH].
  destruct (_ && _); [apply quiet_sleep | apply quiet_ret].
Qed.

Lemma quiet_matrix_outer env opts all todo :
  forall results count, quiet (matrix_outer env opts all todo results count).
Proof.
  induction todo as [| [i a] todo IH]; intros results count; simpl;
    [apply quiet_ret |].
  apply quiet_bind; [apply quiet_matrix_inner |]. intros rc.
  destruct (limit_reached opts rc.2); [apply quiet_ret | apply IH].
Qed.

Lemma quiet_matrix_compute env opts : quiet (matrix_compute env opts).
Proof.
  unfold matrix_compute. apply quiet_bind; [apply quiet_with_store |].
  intros stops. apply quiet_bind; [apply quiet_matrix_outer |].
  intros rc. apply quiet_ret.
Qed.

(** X17.  The matrix builder never changes the store or the refresher's
    artifact.  A dry run leaves the matrix artifact as it was; a run that
    ends well and is not dry has replaced it by the matrix computed; when
    the data directory cannot be written the run does not end well and the
    artifact is as it was. *)
Theorem matrix_handle_artifact env opts w :
  let run := matrix_handle env opts w in
  store run.2 = store w
  /\ ors_stats_json run.2 = ors_stats_json w
  /\ (matrix_dry opts = true -> ors_matrix_json run.2 = ors_matrix_json w)
  /\ (matrix_dry opts = false -> run.1 = Return tt ->
      exists results w1,
        matrix_compute env opts w = (Return results, w1)
        /\ ors_matrix_json run.2 = Some results)
  /\ (matrix_dry opts = false -> data_dir_writable env = false ->
      run.1 ≠ Return tt /\ ors_matrix_json run.2 = ors_matrix_json w).
Proof.
  cbv zeta. unfold matrix_handle, mbind, M_bind.
  destruct (matrix_compute env opts w) as [[results | ex |] w1] eqn:Hrun;
    destruct (quiet_matrix_compute _ _ _ _ _ Hrun) as [Hs [Hst Hm]]; simpl.
  - unfold write_matrix, mret, M_ret.
    destruct (matrix_dry opts), (data_dir_writable env); simpl;
      repeat split; try done; eauto.
  - repeat split; done.
  - repeat split; done.
Qed.




(** ** The two parsers of the provider's document *)

(** X19.  A provider document from which the batch jobs read a distance
    and a duration is also accepted by the endpoint's client, which reports
    the same two values rounded to three and to one decimal, with the
    document itself as geometry. *)
Theorem provider_parsers_agree env doc d t :
  parse_pair env doc = Some (Some (d, t)) ->
  parse_summary env doc
  = Some (Some {| geojson := doc; distance_km := py_round d 3;
                  duration_min := py_round t 1 |}).
Proof.
  unfold parse_pair, parse_summary.
  destruct (dict_get doc "features" (JArr [])) as [features |]; [| done].
  cbn [mbind option_bind].
  destruct (negb (truthy features)); [done |].
  destruct (first_item features) as [f0 |]; [| done]. cbn [mbind option_bind].
  destruct f0 as [| | | | | members]; try done.
  cbn [subscript dict_get]. destruct (assoc "properties" members) as [props |];
    [| done].
  cbn [mbind option_bind default id].
  destruct (dict_get props "summary" (JObj [])) as [summary |]; [| done].
  cbn [mbind option_bind].
  destruct (dict_get summary "distance" (JNum 0) ≫= py_float env) as [distance_m |];
    [| done].
  cbn [mbind option_bind].
  destruct (dict_get summary "duration" (JNum 0) ≫= py_float env) as [duration_s |];
    [| done].
  cbn [mbind option_bind]. by intros [= <- <-].
Qed.

Lemma provider_parsers_agree_witness :
  parse_summary up_env route_document
  = Some (Some {| geojson := route_document;
                  distance_km := py_round (1500 / 1000) 3;
                  duration_min := py_round (120 / 60) 1 |}).
Proof.
  apply (provider_parsers_agree up_env route_document (1500 / 1000) (120 / 60)).
  reflexivity.
Defined.

(** ** The stats endpoint *)

Lemma stats_eq w :
  stats w
  = (Return {| stats_status := HTTP_200_OK;
               stats_nodes := Z.of_nat (size (bus_stops (store w)));
               stats_edges := Z.of_nat (length (routes (store w)));
               stats_ors := ors_stats_json w |}, w).
Proof. reflexivity. Qed.

(** X20.  The stats endpoint answers 200 and changes nothing.  After a
    pass of the refresher, however it ended, it reports the same numbers
    of stops and of edges as before; after a pass that completed (with a
    credential and a writable data directory) its [ors] entry counts every
    edge of the pass once. *)
Theorem stats_after_refresh env opts w :
  let run := refresh_handle env opts w in
  exists resp,
    stats run.2 = (Return resp, run.2)
    /\ stats_status resp = 200
    /\ stats_nodes resp = Z.of_nat (size (bus_stops (store w)))
    /\ stats_edges resp = Z.of_nat (length (routes (store w)))
    /\ (OPENROUTESERVICE_API_KEY env ≠ "" -> data_dir_writable env = true ->
        run.1 = Return tt ->
        exists st,
          stats_ors resp = Some st
          /\ stats_updated st + stats_skipped st
             = Z.of_nat (length (refresh_queryset opts (store w)))).
Proof.
  intros run. eexists. split; [apply stats_eq |].
  cbn [stats_status stats_nodes stats_edges stats_ors].
  split; [done |].
  assert (Hkeep : bus_stops (store run.2) = bus_stops (store w)
                  /\ length (routes (store run.2)) = length (routes (store w))).
  { apply (refresh_handle_invariant
             (fun w' => bus_stops (store w') = bus_stops (store w)
                        /\ length (routes (store w')) = length (routes (store w)))).
    - intros row w' _ [H1 H2].
      destruct (refresh_fetch env opts row w') as [res w1] eqn:Hf.
      destruct (quiet_refresh_fetch _ _ _ _ _ _ Hf) as [Hs _]. simpl.
      by rewrite Hs.
    - intros s w' H. exact H.
    - intros row d t w' _ [H1 H2]. simpl. by rewrite length_fmap.
    - intros u s w' H. unfold write_stats. by destruct (data_dir_writable env).
    - done. }
  destruct Hkeep as [-> ->]. split; [done |]. split; [done |].
  intros Hkey Hdir. subst run. unfold refresh_handle.
  apply String.eqb_neq in Hkey. rewrite Hkey.
  unfold mbind, M_bind, with_store.
  pose proof (refresh_loop_counters env opts (refresh_queryset opts (store w)) 0 0 w)
    as Hc.
  destruct (refresh_loop env opts _ 0 0 w) as [[c | e |] w1]; try done.
  intros _. specialize (Hc c eq_refl). unfold write_stats. rewrite Hdir. simpl.
  eexists. split; [reflexivity |]. simpl. lia.
Qed.

(** ** One pair of the matrix *)

(** X21.  With a credential the matrix builder sends, for one pair, the
    same request at least once and at most [retries + 1] times, sleeping
    between two attempts, and changes nothing else; the entry is the
    estimate only when all the attempts have been used. *)
Theorem matrix_entry_budget env opts (a b : Z * BusStop) w :
  OPENROUTESERVICE_API_KEY env ≠ "" ->
  let req := pair_request (OPENROUTESERVICE_API_KEY env) a.2 b.2
               (py_int (matrix_timeout opts)) in
  let budget := Z.to_nat (Z.max 0 (matrix_retries opts) + 1) in
  exists k,
    (1 <= k <= budget)%nat
    /\ (matrix_entry env opts a b w).2 = after_attempts w req (matrix_sleep opts) k
    /\ ((matrix_entry env opts a b w).1 = Return (haversine_entry env a b) ->
        k = budget).
Proof.
  intros Hkey req budget. unfold matrix_entry.
  apply String.eqb_neq in Hkey. rewrite Hkey. cbn [negb].
  destruct (retry_loop_attempts _ _ (matrix_sleep opts)
              (ors_pair_sends_once env
                 (longitude a.2) (latitude a.2) (longitude b.2) (latitude b.2)
                 (OPENROUTESERVICE_API_KEY env) (py_int (matrix_timeout opts)))
              budget w) as [k [Hw [Hle [Hpos Hnone]]]].
  exists k. split; [split; [apply Hpos; unfold budget; lia | done] |].
  unfold mbind, M_bind. fold budget.
  destruct (retry_loop _ (matrix_sleep opts) budget w) as [[[[d t] |] | ex |] w1];
    simpl in *; (split; [exact Hw |]); try done.
  intros _. by apply Hnone.
Qed.

Lemma matrix_entry_budget_witness :
  exists k,
    (1 <= k <= Z.to_nat (Z.max 0 (matrix_retries (default_matrix 0)) + 1))%nat
    /\ (matrix_entry down_env (default_matrix 0) (1, stop_at "A" 12 75)
          (2, stop_at "B" 13 76) (fresh_world three_stops)).2
       = after_attempts (fresh_world three_stops)
           (pair_request (OPENROUTESERVICE_API_KEY down_env)
              (stop_at "A" 12 75) (stop_at "B" 13 76)
              (py_int (matrix_timeout (default_matrix 0))))
           (matrix_sleep (default_matrix 0)) k
    /\ ((matrix_entry down_env (default_matrix 0) (1, stop_at "A" 12 75)
           (2, stop_at "B" 13 76) (fresh_world three_stops)).1
        = Return (haversine_entry down_env (1, stop_at "A" 12 75)
                    (2, stop_at "B" 13 76)) ->
        k = Z.to_nat (Z.max 0 (matrix_retries (default_matrix 0)) + 1)).
Proof.
  apply (matrix_entry_budget down_env (default_matrix 0) (1, stop_at "A" 12 75)
           (2, stop_at "B" 13 76) (fresh_world three_stops)).
  done.
Defined.

(** ** A dry run of the refresher *)

Lemma same_outside_refl w : same_outside w w.
Proof. by repeat split. Qed.

Lemma store_blind_ret {A} (a : A) : store_blind (mret a).
Proof. intros w1 w2 H. done. Qed.

Lemma store_blind_bind {A B} (m : M A) (f : A -> M B) :
  store_blind m -> (forall a, store_blind (f a)) -> store_blind (m ≫= f).
Proof.
  intros Hm Hf w1 w2 H. unfold mbind, M_bind.
  destruct (Hm w1 w2 H) as [Hr Hw].
  destruct (m w1) as [[a1 | e1 |] w1'], (m w2) as [[a2 | e2 |] w2']; simpl in *;
    try done.
  - injection Hr as ->. by apply Hf.
  - injection Hr as ->. done.
Qed.

Lemma store_blind_fmap {A B} (g : A -> B) (m : M A) :
  store_blind m -> store_blind (g <$> m).
Proof.
  intros Hm w1 w2 H. unfold fmap, M_fmap.
  destruct (Hm w1 w2 H) as [Hr Hw].
  destruct (m w1) as [[a1 | e1 |] w1'], (m w2) as [[a2 | e2 |] w2']; simpl in *;
    try done.
  - injection Hr as ->. done.
  - injection Hr as ->. done.
Qed.

Lemma store_blind_try_except {A} (m : M A) catches (handler : M A) :
  store_blind m -> store_blind handler -> store_blind (try_except m catches handler).
Proof.
  intros Hm Hh w1 w2 H. unfold try_except.
  destruct (Hm w1 w2 H) as [Hr Hw].
  destruct (m w1) as [[a1 | e1 |] w1'], (m w2) as [[a2 | e2 |] w2']; simpl in *;
    try done.
  injection Hr as ->. destruct (catches e2); [by apply Hh | done].
Qed.

Lemma store_blind_sleep seconds : store_blind (sleep seconds).
Proof.
  intros w1 w2 [H1 [H2 [H3 H4]]]. split; [done |]. unfold same_outside. simpl.
  by rewrite H1, H2.
Qed.

Lemma store_blind_urlopen_read_json env req : store_blind (urlopen_read_json env req).
Proof.
  intros w1 w2 [H1 [H2 [H3 H4]]]. unfold urlopen_read_json. rewrite H1.
  destruct (urlopen env (length (sent w2)) req) as [s | | | | [doc |]];
    (split; [done |]); unfold same_outside; simpl; by rewrite ?H1.
Qed.

Lemma store_blind_retry_loop fetch sleep_s remaining :
  store_blind fetch -> store_blind (retry_loop fetch sleep_s remaining).
Proof.
  intros Hfetch. induction remaining as [| k IH]; simpl; [apply store_blind_ret |].
  apply store_blind_bind; [done |]. intros [p |]; [apply store_blind_ret |].
  apply store_blind_bind; [| intros; apply IH].
  destruct (_ && _); [apply store_blind_sleep | apply store_blind_ret].
Qed.

Lemma store_blind_refresh_fetch env opts row : store_blind (refresh_fetch env opts row).
Proof.
  destruct row as [[r a] b]. unfold refresh_fetch.
  apply store_blind_retry_loop. unfold _ors_distance_duration.
  apply store_blind_bind.
  - apply store_blind_try_except; [| apply store_blind_ret].
    apply store_blind_fmap, store_blind_urlopen_read_json.
  - intros [res |]; apply store_blind_ret.
Qed.

Lemma same_outside_after_row opts1 opts2 row answer w1 w2 :
  refresh_sleep opts1 = refresh_sleep opts2 ->
  same_outside w1 w2 ->
  same_outside (after_row opts1 row answer w1) (after_row opts2 row answer w2).
Proof.
  intros Hsleep [H1 [H2 [H3 H4]]]. unfold after_row. rewrite Hsleep.
  destruct answer as [[d t] |];
    destruct (refresh_dry opts1), (refresh_dry opts2), (Qltb 0 (refresh_sleep opts2));
    unfold same_outside; simpl; by rewrite ?H1, ?H2.
Qed.

Lemma refresh_loop_rehearsal env opts rows :
  forall updated skipped w1 w2,
    same_outside w1 w2 ->
    (refresh_loop env (as_dry opts) rows updated skipped w1).1
    = (refresh_loop env opts rows updated skipped w2).1
    /\ same_outside (refresh_loop env (as_dry opts) rows updated skipped w1).2
         (refresh_loop env opts rows updated skipped w2).2.
Proof.
  induction rows as [| row rows IH]; intros updated skipped w1 w2 H; [done |].
  rewrite !refresh_loop_cons.
  assert (Hsame : refresh_fetch env (as_dry opts) row = refresh_fetch env opts row)
    by (by destruct row as [[r a] b]).
  rewrite Hsame.
  destruct (store_blind_refresh_fetch env opts row w1 w2 H) as [Hr Hw].
  destruct (refresh_fetch env opts row w1) as [[a1 | e1 |] w1'],
           (refresh_fetch env opts row w2) as [[a2 | e2 |] w2']; simpl in *; try done.
  - injection Hr as ->. apply IH. by apply same_outside_after_row.
  - injection Hr as ->. done.
Qed.

(** X22.  A dry run rehearses the real one: from the same world and with
    the same other options it ends the same way, has sent the same
    requests, slept the same pauses and left the same artifact; only the
    store differs, which the dry run leaves as it was. *)
Theorem refresh_dry_rehearsal env opts w :
  let dry := refresh_handle env (as_dry opts) w in
  let real := refresh_handle env opts w in
  dry.1 = real.1
  /\ sent dry.2 = sent real.2
  /\ slept dry.2 = slept real.2
  /\ ors_stats_json dry.2 = ors_stats_json real.2
  /\ ors_matrix_json dry.2 = ors_matrix_json real.2
  /\ store dry.2 = store w.
Proof.
  cbv zeta. split; [| split; [| split; [| split; [| split]]]];
    try (eapply (refresh_handle_dry_store env (as_dry opts) w);
         [reflexivity | apply surjective_pairing]).
  all: unfold refresh_handle; destruct (String.eqb _ _); [done |];
    unfold mbind, M_bind, with_store;
    change (refresh_queryset (as_dry opts) (store w))
      with (refresh_queryset opts (store w));
    destruct (refresh_loop_rehearsal env opts (refresh_queryset opts (store w))
                0 0 w w (same_outside_refl w)) as [Hr [H1 [H2 [H3 H4]]]];
    destruct (refresh_loop env (as_dry opts) _ 0 0 w) as [[c1 | e1 |] w1'],
             (refresh_loop env opts _ 0 0 w) as [[c2 | e2 |] w2'];
    simpl in *; try done;
    try (injection Hr as ->); unfold write_stats;
    destruct (data_dir_writable env); simpl; congruence.
Qed.
